(** * sogni-gen: the request configuration resolution engine

    A shallow embedding of the resolution pipeline of [sogni-gen.mjs]
    (argument parsing, plugin-configuration merge, video workflow
    resolution, per-workflow asset validation and seed resolution), with
    the properties of the specification stated and settled over it.

    The script keeps its state in two JavaScript objects, [options] and
    [cliSet], which it mutates from top to bottom.  Both are modelled as
    finite maps from property names to JavaScript values, threaded through
    the stages in the order of the script.  A stage that can call
    [process.exit] or let an exception escape returns a [result].

    Beside the pipeline, the request that [main] makes of the resolved
    options ([getModelDefaults] and the three project configurations) and
    [loadCredentials] are embedded, with properties read off the code. *)

From Stdlib Require Import ZArith String Ascii List Bool Lia.
From Stdlib.Strings Require Import Byte.
From Stdlib Require Import DecimalString.
From stdpp Require Import base option gmap strings list fin_maps.

Set Warnings "-register-all".
Local Open Scope string_scope.

(* ================================================================== *)
(** * JavaScript values *)
(* ================================================================== *)

Module JS.

(** Numbers.  Every number the pipeline computes with comes from
    [parseInt], from a literal of the script, or is copied unchanged from
    the plugin configuration; the finite ones are modelled by the integer
    they denote.  Rounding to binary64 (beyond 2^53) and fractional
    configuration values are outside this model; [-0] is identified with
    [0], from which no operation used here tells it apart. *)
Inductive number :=
| NaN
| PosInf
| NegInf
| Int (z : Z).

(** The values that [process.argv], [JSON.parse] and [JSON5.parse] can
    produce, plus [undefined].  [VObj] lists the own properties of an
    object in enumeration order, each name once. *)
Inductive value :=
| VUndef
| VNull
| VBool (b : bool)
| VNum (n : number)
| VStr (s : string)
| VArr (items : list value)
| VObj (props : list (string * value)).

#[global] Instance value_inhabited : Inhabited value := populate VUndef.

(** A JavaScript object used as a record of named slots.  A missing
    property reads as [undefined], which is what [o !!! k] returns. *)
Abbreviation obj := (gmap string value).

(** ToBoolean. *)
Definition truthy (v : value) : bool :=
  match v with
  | VUndef | VNull => false
  | VBool b => b
  | VNum NaN => false
  | VNum (Int z) => negb (z =? 0)%Z
  | VNum _ => true
  | VStr EmptyString => false
  | VStr _ => true
  | VArr _ | VObj _ => true
  end.

(** [a || b] *)
Definition js_or (a b : value) : value := if truthy a then a else b.

(** [v === null || v === undefined] *)
Definition nullish (v : value) : bool :=
  match v with
  | VUndef | VNull => true
  | _ => false
  end.

(** [Number.isFinite(v)] *)
Definition isFinite (v : value) : bool :=
  match v with
  | VNum (Int _) => true
  | _ => false
  end.

(** [v === lit] for a string literal [lit]. *)
Definition is_str (v : value) (lit : string) : bool :=
  match v with
  | VStr s => String.eqb s lit
  | _ => false
  end.

(** [v === n] for a number literal [n]. *)
Definition is_int (v : value) (n : Z) : bool :=
  match v with
  | VNum (Int z) => (z =? n)%Z
  | _ => false
  end.

(** [a !== b] where both sides are strings; on other operands the script
    never reaches this comparison. *)
Definition str_neq (a b : value) : bool :=
  match a, b with
  | VStr s, VStr t => negb (String.eqb s t)
  | _, _ => true
  end.

(** [n * 1000] *)
Definition times1000 (n : number) : number :=
  match n with
  | Int z => Int (z * 1000)
  | other => other
  end.

Fixpoint assoc (k : string) (ps : list (string * value)) : value :=
  match ps with
  | [] => VUndef
  | (k', v) :: rest => if String.eqb k k' then v else assoc k rest
  end.

(** [v.k] for a [v] that is neither [null] nor [undefined] (also [v?.k]
    for any [v]).  The names the script reads are own data properties
    only; on a primitive or an array they are [undefined]. *)
Definition prop (v : value) (k : string) : value :=
  match v with
  | VObj ps => assoc k ps
  | _ => VUndef
  end.

(** The bytes that continue a UTF-8 sequence, at the head of [s]. *)
Fixpoint continuation (s : string) : string :=
  match s with
  | String c rest =>
      let n := nat_of_ascii c in
      if (128 <=? n)%nat && (n <? 192)%nat then String c (continuation rest)
      else EmptyString
  | EmptyString => EmptyString
  end.

(** [v?.[0]]: the first element of an array, the first character of a
    string (a character of the basic plane in this model), the property
    ["0"] of an object. *)
Definition first_elem (v : value) : value :=
  match v with
  | VArr (x :: _) => x
  | VStr (String c rest) => VStr (String c (continuation rest))
  | VObj ps => assoc "0" ps
  | _ => VUndef
  end.

(** [arr.push(x)]; [options.contextImages] is an array throughout. *)
Definition push (arr x : value) : value :=
  match arr with
  | VArr l => VArr (l ++ [x])
  | other => other
  end.

(** [arr.length > 0] *)
Definition nonempty (arr : value) : bool :=
  match arr with
  | VArr (_ :: _) => true
  | _ => false
  end.

Definition array_length (arr : value) : nat :=
  match arr with
  | VArr l => List.length l
  | _ => 0
  end.

(** ** Strings

    A string is the sequence of the bytes of its UTF-8 encoding, which is
    how the arguments arrive and how the digest consumes them. *)

Definition lower_ascii (c : ascii) : ascii :=
  let n := nat_of_ascii c in
  if (65 <=? n)%nat && (n <=? 90)%nat then ascii_of_nat (n + 32) else c.

(** [s.toLowerCase()].  Besides the letters A to Z, two characters outside
    ASCII have a lower case that contains an ASCII letter: U+212A (Kelvin
    sign, bytes E2 84 AA) becomes [k], and U+0130 (bytes C4 B0) becomes
    [i] followed by U+0307 (bytes CC 87).  Every other character outside
    ASCII maps to characters outside ASCII, which none of the comparisons
    below can match, and is left as it is. *)
Fixpoint toLowerCase (s : string) : string :=
  match s with
  | EmptyString => EmptyString
  | String c rest =>
      match c, rest with
      | "226"%char, String "132"%char (String "170"%char rest') =>
          String "k" (toLowerCase rest')
      | "196"%char, String "176"%char rest' =>
          String "i" (String "204" (String "135" (toLowerCase rest')))
      | _, _ => String (lower_ascii c) (toLowerCase rest)
      end
  end.

(** [s.includes(pat)] *)
Fixpoint includes (s pat : string) : bool :=
  String.prefix pat s ||
  match s with
  | EmptyString => false
  | String _ rest => includes rest pat
  end.

(** [s.startsWith(pat)] *)
Definition startsWith (s pat : string) : bool := String.prefix pat s.

End JS.
Export JS.

(** [parseInt(v)] with no radix argument.  Leading white space is
    skipped (the WhiteSpace and LineTerminator characters of ECMAScript,
    in their UTF-8 encoding), then an optional sign, then an optional
    [0x] prefix selecting radix 16; the longest run of digits is read and
    the rest ignored.  No digit gives [NaN], as does [undefined]. *)
Module ParseInt.

Fixpoint skip_white (s : string) : string :=
  match s with
  | String "009"%char r | String "010"%char r | String "011"%char r
  | String "012"%char r | String "013"%char r | String " "%char r => skip_white r
  | String "194"%char (String "160"%char r) => skip_white r
  | String "239"%char (String "187"%char (String "191"%char r)) => skip_white r
  | String "225"%char (String "154"%char (String "128"%char r)) => skip_white r
  | String "227"%char (String "128"%char (String "128"%char r)) => skip_white r
  | String "226"%char (String "129"%char (String "159"%char r)) => skip_white r
  | String "226"%char (String "128"%char (String c r)) =>
      let n := nat_of_ascii c in
      if ((128 <=? n)%nat && (n <=? 138)%nat) || (n =? 168)%nat || (n =? 169)%nat
         || (n =? 175)%nat
      then skip_white r else s
  | _ => s
  end.

Definition digit_value (c : ascii) : option Z :=
  let n := Z.of_nat (nat_of_ascii c) in
  if (48 <=? n)%Z && (n <=? 57)%Z then Some (n - 48)%Z
  else if (97 <=? n)%Z && (n <=? 122)%Z then Some (n - 87)%Z
  else if (65 <=? n)%Z && (n <=? 90)%Z then Some (n - 55)%Z
  else None.

Fixpoint digits (radix : Z) (s : string) (acc : option Z) : option Z :=
  match s with
  | EmptyString => acc
  | String c rest =>
      match digit_value c with
      | Some d =>
          if (d <? radix)%Z
          then digits radix rest (Some (default 0%Z acc * radix + d)%Z)
          else acc
      | None => acc
      end
  end.

Definition parseInt (v : value) : number :=
  match v with
  | VStr s =>
      let s1 := skip_white s in
      let '(negative, s2) :=
        match s1 with
        | String "-"%char r => (true, r)
        | String "+"%char r => (false, r)
        | _ => (false, s1)
        end in
      let '(radix, s3) :=
        match s2 with
        | String "0"%char (String "x"%char r) => (16%Z, r)
        | String "0"%char (String "X"%char r) => (16%Z, r)
        | _ => (10%Z, s2)
        end in
      match digits radix s3 None with
      | Some n => Int (if negative then - n else n)
      | None => NaN
      end
  | _ => NaN
  end.

End ParseInt.
Export ParseInt.

(* ================================================================== *)
(** * Node.js buffers and SHA-256 *)
(* ================================================================== *)

(** A [Buffer] is a sequence of bytes. *)
Abbreviation buffer := (list byte).

Definition byte_of_Z (z : Z) : byte :=
  default x00 (Byte.of_N (Z.to_N (z mod 256))).

Definition Z_of_byte (b : byte) : Z := Z.of_N (Byte.to_N b).

(** [Buffer.from(s, 'utf8')], which is what [hash.update(s)] feeds to the
    digest. *)
Definition utf8 (s : string) : buffer := list_byte_of_string s.

(** [buf.readUInt32BE(0)]; Node throws a RangeError when the buffer is
    shorter than four bytes. *)
Definition readUInt32BE (buf : buffer) : option Z :=
  match buf with
  | b0 :: b1 :: b2 :: b3 :: _ =>
      Some (((Z_of_byte b0 * 256 + Z_of_byte b1) * 256 + Z_of_byte b2) * 256
            + Z_of_byte b3)%Z
  | _ => None
  end.

(** SHA-256 as in FIPS 180-4, on 32-bit words carried by [Z]. *)
Module Sha256.
Local Open Scope Z_scope.

Definition add32 (a b : Z) : Z := (a + b) mod 2^32.
Definition rotr (n x : Z) : Z :=
  Z.lor (Z.shiftr x n) (Z.shiftl x (32 - n) mod 2^32).
Definition shr (n x : Z) : Z := Z.shiftr x n.
Definition not32 (x : Z) : Z := Z.lxor x 0xFFFFFFFF.

Definition Ch (x y z : Z) : Z := Z.lxor (Z.land x y) (Z.land (not32 x) z).
Definition Maj (x y z : Z) : Z :=
  Z.lxor (Z.lxor (Z.land x y) (Z.land x z)) (Z.land y z).
Definition Sigma0 (x : Z) : Z :=
  Z.lxor (Z.lxor (rotr 2 x) (rotr 13 x)) (rotr 22 x).
Definition Sigma1 (x : Z) : Z :=
  Z.lxor (Z.lxor (rotr 6 x) (rotr 11 x)) (rotr 25 x).
Definition sigma0 (x : Z) : Z :=
  Z.lxor (Z.lxor (rotr 7 x) (rotr 18 x)) (shr 3 x).
Definition sigma1 (x : Z) : Z :=
  Z.lxor (Z.lxor (rotr 17 x) (rotr 19 x)) (shr 10 x).

(** The round constants and the initial hash value are defined as the
    standard does: the first 32 bits of the fractional parts of the cube
    roots of the first 64 primes, and of the square roots of the first 8. *)
Definition is_prime (n : nat) : bool :=
  forallb (fun d => negb (n mod d =? 0)%nat) (seq 2 (n - 2)).

Definition primes (count : nat) : list Z :=
  map Z.of_nat (firstn count (List.filter is_prime (seq 2 400))).

(** The largest [r + k] with [k < 2 ^ bits] whose cube is at most [n]. *)
Fixpoint cube_root (bits : nat) (n r : Z) : Z :=
  match bits with
  | O => r
  | S b =>
      let c := r + 2 ^ Z.of_nat b in
      if c * c * c <=? n then cube_root b n c else cube_root b n r
  end.

Definition K : list Z :=
  Eval vm_compute in
    map (fun p => cube_root 36 (p * 2 ^ 96) 0 mod 2 ^ 32) (primes 64).

Definition H0 : list Z :=
  Eval vm_compute in map (fun p => Z.sqrt (p * 2 ^ 64) mod 2 ^ 32) (primes 8).

(** Big-endian bytes of the low [8 * n] bits of [x]. *)
Fixpoint be_bytes (n : nat) (x : Z) : list Z :=
  match n with
  | O => []
  | S n' => Z.shiftr x (8 * Z.of_nat n') mod 256 :: be_bytes n' x
  end.

Fixpoint be_word (bs : list Z) (acc : Z) : Z :=
  match bs with
  | [] => acc
  | b :: rest => be_word rest (acc * 256 + b)
  end.

(** The message, a 1 bit, zeros up to 56 modulo 64 bytes, and the length
    of the message in bits on 8 bytes. *)
Definition pad (msg : list Z) : list Z :=
  let len := Z.of_nat (List.length msg) in
  msg ++ [0x80] ++ List.repeat 0 (Z.to_nat ((55 - len) mod 64))
      ++ be_bytes 8 (8 * len).

Fixpoint words (n : nat) (bs : list Z) : list Z :=
  match n with
  | O => []
  | S n' => be_word (firstn 4 bs) 0 :: words n' (skipn 4 bs)
  end.

(** The message schedule, latest word first. *)
Fixpoint schedule (n : nat) (rev_w : list Z) : list Z :=
  match n with
  | O => rev_w
  | S n' =>
      let w := add32 (add32 (sigma1 (nth 1 rev_w 0)) (nth 6 rev_w 0))
                     (add32 (sigma0 (nth 14 rev_w 0)) (nth 15 rev_w 0)) in
      schedule n' (w :: rev_w)
  end.

Record regs :=
  Regs { ra : Z; rb : Z; rc : Z; rd : Z; re : Z; rf : Z; rg : Z; rh : Z }.

Definition round (r : regs) (kw : Z * Z) : regs :=
  let '(k, w) := kw in
  let t1 := add32 (add32 (add32 (rh r) (Sigma1 (re r)))
                         (add32 (Ch (re r) (rf r) (rg r)) k)) w in
  let t2 := add32 (Sigma0 (ra r)) (Maj (ra r) (rb r) (rc r)) in
  Regs (add32 t1 t2) (ra r) (rb r) (rc r) (add32 (rd r) t1) (re r) (rf r) (rg r).

Definition compress (h : regs) (block : list Z) : regs :=
  let w := rev (schedule 48 (rev (words 16 block))) in
  let r := fold_left round (combine K w) h in
  Regs (add32 (ra h) (ra r)) (add32 (rb h) (rb r))
       (add32 (rc h) (rc r)) (add32 (rd h) (rd r))
       (add32 (re h) (re r)) (add32 (rf h) (rf r))
       (add32 (rg h) (rg r)) (add32 (rh h) (rh r)).

Fixpoint blocks (n : nat) (h : regs) (bs : list Z) : regs :=
  match n with
  | O => h
  | S n' => blocks n' (compress h (firstn 64 bs)) (skipn 64 bs)
  end.

Definition init : regs :=
  match H0 with
  | [a; b; c; d; e; f; g; h] => Regs a b c d e f g h
  | _ => Regs 0 0 0 0 0 0 0 0
  end.

Definition hash_words (msg : list Z) : regs :=
  let p := pad msg in
  blocks (List.length p / 64)%nat init p.

Definition word_bytes (w : Z) : buffer := map byte_of_Z (be_bytes 4 w).

(** [createHash('sha256').update(data).digest()] *)
Definition digest (data : buffer) : buffer :=
  let r := hash_words (map Z_of_byte data) in
  word_bytes (ra r) ++ word_bytes (rb r) ++ word_bytes (rc r)
    ++ word_bytes (rd r) ++ word_bytes (re r) ++ word_bytes (rf r)
    ++ word_bytes (rg r) ++ word_bytes (rh r).

End Sha256.

(* ================================================================== *)
(** * JSON.stringify *)
(* ================================================================== *)

Module Json.

Definition dquote : ascii := "034"%char.
Definition backslash : ascii := "092"%char.

Definition hex_digit (n : nat) : ascii :=
  if (n <? 10)%nat then ascii_of_nat (48 + n) else ascii_of_nat (87 + n).

(** One character of a quoted string. *)
Definition escape (c : ascii) : string :=
  let n := nat_of_ascii c in
  if (n =? 34)%nat then String backslash (String dquote EmptyString)
  else if (n =? 92)%nat then String backslash (String backslash EmptyString)
  else if (n =? 8)%nat then String backslash "b"
  else if (n =? 9)%nat then String backslash "t"
  else if (n =? 10)%nat then String backslash "n"
  else if (n =? 12)%nat then String backslash "f"
  else if (n =? 13)%nat then String backslash "r"
  else if (n <? 32)%nat
       then String backslash
              ("u00" ++ String (hex_digit (n / 16)) (String (hex_digit (n mod 16)) EmptyString))
  else String c EmptyString.

Fixpoint escape_all (s : string) : string :=
  match s with
  | EmptyString => EmptyString
  | String c rest => escape c ++ escape_all rest
  end.

Definition quote (s : string) : string :=
  String dquote (escape_all s ++ String dquote EmptyString).

(** A finite number prints in decimal (as JavaScript prints an integer
    below 10^21), the others as [null]. *)
Definition number_text (n : number) : string :=
  match n with
  | Int z => NilZero.string_of_int (Z.to_int z)
  | _ => "null"
  end.

Fixpoint join (sep : string) (parts : list string) : string :=
  match parts with
  | [] => EmptyString
  | [p] => p
  | p :: rest => p ++ sep ++ join sep rest
  end.

(** [JSON.stringify(v)]; [None] stands for the result [undefined].  An
    [undefined] element of an array prints as [null], a property whose
    value is [undefined] is left out. *)
Fixpoint stringify (v : value) : option string :=
  match v with
  | VUndef => None
  | VNull => Some "null"
  | VBool true => Some "true"
  | VBool false => Some "false"
  | VNum n => Some (number_text n)
  | VStr s => Some (quote s)
  | VArr items =>
      let elems :=
        (fix go (l : list value) : list string :=
           match l with
           | [] => []
           | x :: rest => default "null" (stringify x) :: go rest
           end) items in
      Some ("[" ++ join "," elems ++ "]")
  | VObj props =>
      let members :=
        (fix go (l : list (string * value)) : list string :=
           match l with
           | [] => []
           | (k, x) :: rest =>
               match stringify x with
               | Some s => (quote k ++ ":" ++ s) :: go rest
               | None => go rest
               end
           end) props in
      Some ("{" ++ join "," members ++ "}")
  end.

End Json.

(** [String(v)], used where a value serves as a property name. *)
Fixpoint to_string (v : value) : string :=
  match v with
  | VUndef => "undefined"
  | VNull => "null"
  | VBool true => "true"
  | VBool false => "false"
  | VNum NaN => "NaN"
  | VNum PosInf => "Infinity"
  | VNum NegInf => "-Infinity"
  | VNum (Int z) => NilZero.string_of_int (Z.to_int z)
  | VStr s => s
  | VArr items =>
      Json.join ","
        ((fix go (l : list value) : list string :=
            match l with
            | [] => []
            | x :: rest => (if nullish x then EmptyString else to_string x) :: go rest
            end) items)
  | VObj _ => "[object Object]"
  end.

(** [v[k]] for a [v] that is neither [null] nor [undefined]. *)
Definition prop_at (v k : value) : value := prop v (to_string k).

(* ================================================================== *)
(** * Outcomes of the script *)
(* ================================================================== *)

Inductive exn :=
| TypeError
| SyntaxError
| RangeError.

(** The messages printed before [process.exit(1)], with the values they
    interpolate. *)
Inductive message :=
| TokenTypeInvalid
| SeedStrategyInvalid
| StepsNotNumber
| GuidanceNotNumber
| UnknownWorkflow (workflow : value)
| WorkflowModelMismatch (workflow model : value)
| NoPrompt
| VideoOnlyOptions
| T2VRejectsAssets
| I2VRequiresImage
| I2VRejectsAudioVideo
| S2VRequiresImageAudio
| S2VRejectsVideo
| AnimateRequiresImageVideo
| AnimateRejectsAudio
| ModelWithoutContext (model : value)
| TooManyContextImages (model : value) (max : number) (got : nat).

(** The informational commands, which end in [process.exit(0)]. *)
Inductive info :=
| Help
| ShowLast.

Inductive result (A : Type) :=
| Ok (a : A)
| Exit0 (i : info)
| Exit1 (m : message)
| Throw (e : exn).

Arguments Ok {A} a.
Arguments Exit0 {A} i.
Arguments Exit1 {A} m.
Arguments Throw {A} e.

#[global] Instance result_ret : MRet result := fun A a => Ok a.
#[global] Instance result_bind : MBind result := fun A B f r =>
  match r with
  | Ok a => f a
  | Exit0 i => Exit0 i
  | Exit1 m => Exit1 m
  | Throw e => Throw e
  end.

#[global] Instance result_fmap : FMap result := fun A B f r =>
  match r with
  | Ok a => Ok (f a)
  | Exit0 i => Exit0 i
  | Exit1 m => Exit1 m
  | Throw e => Throw e
  end.

(** [if (c) { console.error(m); process.exit(1); }] *)
Definition reject_if (c : bool) (m : message) : result unit :=
  if c then Exit1 m else Ok tt.

(* ================================================================== *)
(** * The environment of one invocation *)
(* ================================================================== *)

(** The last-render file as [existsSync], [readFileSync] and
    [JSON.parse] present it. *)
Inductive last_render_file :=
| NoFile
| Unparseable
| Parsed (record : value).

Record Env := {
  (** the value returned by [loadOpenClawPluginConfig()] *)
  openclawConfig : value;
  (** the file at [LAST_RENDER_PATH] *)
  lastRenderFile : last_render_file;
  (** [existsSync] on any other path *)
  fileExists : string -> bool;
  (** the bytes that [randomBytes] draws, in order *)
  entropy : nat -> byte;
  (** [getMaxContextImages] of the client wrapper *)
  getMaxContextImages : value -> number;
  (** [parseFloat], whose result only [--guidance] stores *)
  parseFloat : value -> number
}.

(** [existsSync(p)]; a path that is not a string is reported missing. *)
Definition existsSync (env : Env) (p : value) : bool :=
  match p with
  | VStr s => fileExists env s
  | _ => false
  end.

(** [randomBytes(n)] *)
Definition randomBytes (env : Env) (n : nat) : buffer :=
  map (entropy env) (seq 0 n).

(* ================================================================== *)
(** * The functions of sogni-gen.mjs *)
(* ================================================================== *)

(** [o.k] read as a condition. *)
Definition on (o : obj) (k : string) : bool := truthy (o !!! k).

(** [value.toLowerCase()] on a truthy value: a TypeError unless it is a
    string. *)
Definition lowered (v : value) : result string :=
  match v with
  | VStr s => Ok (toLowerCase s)
  | _ => Throw TypeError
  end.

Definition VIDEO_WORKFLOW_DEFAULT_MODELS : value :=
  VObj [("t2v", VStr "wan_v2.2-14b-fp8_t2v_lightx2v");
        ("i2v", VStr "wan_v2.2-14b-fp8_i2v_lightx2v");
        ("s2v", VStr "wan_v2.2-14b-fp8_s2v_lightx2v");
        ("animate-move", VStr "wan_v2.2-14b-fp8_animate-move_lightx2v");
        ("animate-replace", VStr "wan_v2.2-14b-fp8_animate-replace_lightx2v")].

Definition normalizeVideoWorkflow (v : value) : result value :=
  if negb (truthy v) then Ok VNull else
  normalized ← lowered v;
  if (normalized =? "t2v") || (normalized =? "text-to-video") then Ok (VStr "t2v")
  else if (normalized =? "i2v") || (normalized =? "image-to-video") then Ok (VStr "i2v")
  else if (normalized =? "s2v") || (normalized =? "sound-to-video") then Ok (VStr "s2v")
  else if (normalized =? "animate-move") || (normalized =? "animate_move")
       then Ok (VStr "animate-move")
  else if (normalized =? "animate-replace") || (normalized =? "animate_replace")
       then Ok (VStr "animate-replace")
  else Ok VNull.

Definition inferVideoWorkflowFromModel (modelId : value) : result value :=
  if negb (truthy modelId) then Ok VNull else
  id ← lowered modelId;
  if includes id "animate-move" then Ok (VStr "animate-move")
  else if includes id "animate-replace" then Ok (VStr "animate-replace")
  else if includes id "_t2v" || includes id "-t2v" then Ok (VStr "t2v")
  else if includes id "_i2v" || includes id "-i2v" then Ok (VStr "i2v")
  else if includes id "_s2v" || includes id "-s2v" then Ok (VStr "s2v")
  else Ok VNull.

Definition inferVideoWorkflowFromAssets (opts : obj) : value :=
  if on opts "refVideo" then VStr "animate-move"
  else if on opts "refAudio" then VStr "s2v"
  else if on opts "refImage" || on opts "refImageEnd" then VStr "i2v"
  else VNull.

Definition workflowRequiresImage (workflow : value) : bool :=
  is_str workflow "i2v" || is_str workflow "s2v"
  || is_str workflow "animate-move" || is_str workflow "animate-replace".

Definition normalizeSeedStrategy (v : value) : result value :=
  if negb (truthy v) then Ok VNull else
  normalized ← lowered v;
  if normalized =? "random" then Ok (VStr "random")
  else if (normalized =? "prompt-hash") || (normalized =? "prompt_hash")
       then Ok (VStr "prompt-hash")
  else Ok VNull.

(** [buf.readUInt32BE(0)] as a statement of the script. *)
Definition read_seed (buf : buffer) : result value :=
  match readUInt32BE buf with
  | Some z => Ok (VNum (Int z))
  | None => Throw RangeError
  end.

Definition generateRandomSeed (env : Env) : result value :=
  read_seed (randomBytes env 4).

(** The object hashed by [computePromptHashSeed]. *)
Definition seedPayload (opts : obj) : value :=
  VObj [("prompt", js_or (opts !!! "prompt") (VStr EmptyString));
        ("model", js_or (opts !!! "model") (VStr EmptyString));
        ("workflow", if on opts "video" then opts !!! "videoWorkflow" else VStr "image");
        ("width", opts !!! "width");
        ("height", opts !!! "height");
        ("refImage", js_or (opts !!! "refImage") (VStr EmptyString));
        ("refImageEnd", js_or (opts !!! "refImageEnd") (VStr EmptyString));
        ("refAudio", js_or (opts !!! "refAudio") (VStr EmptyString));
        ("refVideo", js_or (opts !!! "refVideo") (VStr EmptyString));
        ("contextImages", js_or (opts !!! "contextImages") (VArr []))].

Definition computePromptHashSeed (opts : obj) : result value :=
  match Json.stringify (seedPayload opts) with
  | Some text => read_seed (Sha256.digest (utf8 text))
  | None => Throw TypeError
  end.

(* ================================================================== *)
(** * Argument parsing *)
(* ================================================================== *)

(** The script's mutable state: the two objects and the flag
    [timeoutFromConfig]. *)
Record state := State {
  options : obj;
  cliSet : obj;
  timeoutFromConfig : bool
}.

Definition initial_options : obj :=
  list_to_map
    [("prompt", VNull); ("output", VNull); ("model", VNull);
     ("width", VNum (Int 512)); ("height", VNum (Int 512));
     ("count", VNum (Int 1)); ("json", VBool false); ("quiet", VBool false);
     ("timeout", VNum (Int 30000)); ("tokenType", VNull); ("steps", VNull);
     ("guidance", VNull); ("seed", VNull); ("lastSeed", VBool false);
     ("seedStrategy", VNull); ("video", VBool false); ("videoWorkflow", VNull);
     ("fps", VNum (Int 16)); ("duration", VNum (Int 5)); ("frames", VNull);
     ("refImage", VNull); ("refImageEnd", VNull); ("refAudio", VNull);
     ("refVideo", VNull); ("contextImages", VArr [])].

Definition initial_cliSet : obj :=
  list_to_map
    [("output", VBool false); ("model", VBool false); ("width", VBool false);
     ("height", VBool false); ("count", VBool false); ("timeout", VBool false);
     ("tokenType", VBool false); ("steps", VBool false);
     ("guidance", VBool false); ("seed", VBool false);
     ("seedStrategy", VBool false); ("video", VBool false);
     ("workflow", VBool false); ("fps", VBool false); ("duration", VBool false);
     ("frames", VBool false); ("refImage", VBool false);
     ("refImageEnd", VBool false); ("refAudio", VBool false);
     ("refVideo", VBool false); ("context", VBool false)].

Definition initial_state : state := State initial_options initial_cliSet false.

(** [options.k = v] *)
Definition set_option (k : string) (v : value) (st : state) : state :=
  State (<[k := v]> (options st)) (cliSet st) (timeoutFromConfig st).

(** [options.k = v; cliSet.c = true] *)
Definition set_from_cli (k c : string) (v : value) (st : state) : state :=
  State (<[k := v]> (options st)) (<[c := VBool true]> (cliSet st))
        (timeoutFromConfig st).

(** The body of the [--last-image] branch. *)
Definition readLastImage (env : Env) (st : state) : result state :=
  match lastRenderFile env with
  | NoFile => Ok st
  | Unparseable => Throw SyntaxError
  | Parsed lastRender =>
      if nullish lastRender then Throw TypeError else
      let localPath := prop lastRender "localPath" in
      let lastImagePath :=
        if truthy localPath && existsSync env localPath then localPath
        else if truthy (first_elem (prop lastRender "urls"))
             then first_elem (prop lastRender "urls")
        else VNull in
      if truthy lastImagePath
      then Ok (set_option "_lastImagePath" lastImagePath st)
      else Ok st
  end.

(** [args[++i]] *)
Definition next_arg (rest : list string) : value :=
  match rest with
  | [] => VUndef
  | x :: _ => VStr x
  end.

Definition is_one_of (arg : string) (names : list string) : bool :=
  existsb (String.eqb arg) names.

(** One turn of the parsing loop on [arg], where [v] is [args[++i]].  The
    boolean tells whether the branch taken consumed [v]. *)
Definition parseArg (env : Env) (arg : string) (v : value) (st : state)
  : result (state * bool) :=
  if is_one_of arg ["-o"; "--output"] then
    Ok (set_from_cli "output" "output" v st, true)
  else if is_one_of arg ["-m"; "--model"] then
    Ok (set_from_cli "model" "model" v st, true)
  else if is_one_of arg ["-w"; "--width"] then
    Ok (set_from_cli "width" "width" (VNum (parseInt v)) st, true)
  else if is_one_of arg ["-h"; "--height"] then
    Ok (set_from_cli "height" "height" (VNum (parseInt v)) st, true)
  else if is_one_of arg ["-n"; "--count"] then
    Ok (set_from_cli "count" "count" (VNum (parseInt v)) st, true)
  else if is_one_of arg ["-t"; "--timeout"] then
    Ok (set_from_cli "timeout" "timeout" (VNum (times1000 (parseInt v))) st, true)
  else if is_one_of arg ["--token-type"; "--token"] then
    Ok (set_from_cli "tokenType" "tokenType" v st, true)
  else if is_one_of arg ["--steps"] then
    Ok (set_from_cli "steps" "steps" (VNum (parseInt v)) st, true)
  else if is_one_of arg ["--guidance"] then
    Ok (set_from_cli "guidance" "guidance" (VNum (parseFloat env v)) st, true)
  else if is_one_of arg ["-s"; "--seed"] then
    Ok (set_from_cli "seed" "seed" (VNum (parseInt v)) st, true)
  else if is_one_of arg ["--seed-strategy"] then
    Ok (set_from_cli "seedStrategy" "seedStrategy" v st, true)
  else if is_one_of arg ["--last-seed"; "--reseed"] then
    Ok (set_option "lastSeed" (VBool true) st, false)
  else if is_one_of arg ["--video"; "-v"] then
    Ok (set_from_cli "video" "video" (VBool true) st, false)
  else if is_one_of arg ["--workflow"] then
    Ok (set_from_cli "videoWorkflow" "workflow" v st, true)
  else if is_one_of arg ["--fps"] then
    Ok (set_from_cli "fps" "fps" (VNum (parseInt v)) st, true)
  else if is_one_of arg ["--duration"] then
    Ok (set_from_cli "duration" "duration" (VNum (parseInt v)) st, true)
  else if is_one_of arg ["--frames"] then
    Ok (set_from_cli "frames" "frames" (VNum (parseInt v)) st, true)
  else if is_one_of arg ["--ref"; "--reference"] then
    Ok (set_from_cli "refImage" "refImage" v st, true)
  else if is_one_of arg ["--ref-end"; "--end"] then
    Ok (set_from_cli "refImageEnd" "refImageEnd" v st, true)
  else if is_one_of arg ["--ref-audio"; "--audio"] then
    Ok (set_from_cli "refAudio" "refAudio" v st, true)
  else if is_one_of arg ["--ref-video"] then
    Ok (set_from_cli "refVideo" "refVideo" v st, true)
  else if is_one_of arg ["-c"; "--context"] then
    Ok (set_from_cli "contextImages" "context"
          (push (options st !!! "contextImages") v) st, true)
  else if is_one_of arg ["--last-image"] then
    st' ← readLastImage env st; Ok (st', false)
  else if is_one_of arg ["--last"] then
    Exit0 ShowLast
  else if is_one_of arg ["--json"] then
    Ok (set_option "json" (VBool true) st, false)
  else if is_one_of arg ["-q"; "--quiet"] then
    Ok (set_option "quiet" (VBool true) st, false)
  else if is_one_of arg ["--help"] then
    Exit0 Help
  else if negb (startsWith arg "-") && negb (on (options st) "prompt") then
    Ok (set_option "prompt" (VStr arg) st, false)
  else Ok (st, false).

(** [for (let i = 0; i < args.length; i++) { ... }] *)
Fixpoint parseArgs (env : Env) (args : list string) (st : state) : result state :=
  match args with
  | [] => Ok st
  | arg :: rest =>
      '(st', consumed) ← parseArg env arg (next_arg rest) st;
      parseArgs env
        (if consumed : bool then match rest with [] => rest | _ :: r => r end
         else rest)
        st'
  end.

(* ================================================================== *)
(** * Plugin configuration merge *)
(* ================================================================== *)

(** [if (c) options.k = v;] *)
Definition assign_if (c : bool) (k : string) (v : value) (opts : obj) : obj :=
  if c then <[k := v]> opts else opts.

(** [v * 1000] for a [v] that passed [Number.isFinite]. *)
Definition seconds_to_ms (v : value) : value :=
  match v with
  | VNum n => VNum (times1000 n)
  | _ => VNum NaN
  end.

(** The block guarded by [if (openclawConfig)].  Returns the options and
    the final value of [timeoutFromConfig]. *)
Definition mergeConfig (cfg : value) (cli opts : obj) : obj * bool :=
  if truthy cfg then
    let opts := assign_if (negb (on cli "width") && isFinite (prop cfg "defaultWidth"))
                  "width" (prop cfg "defaultWidth") opts in
    let opts := assign_if (negb (on cli "height") && isFinite (prop cfg "defaultHeight"))
                  "height" (prop cfg "defaultHeight") opts in
    let opts := assign_if (negb (on cli "count") && isFinite (prop cfg "defaultCount"))
                  "count" (prop cfg "defaultCount") opts in
    let opts := assign_if (negb (on cli "tokenType") && truthy (prop cfg "defaultTokenType"))
                  "tokenType" (prop cfg "defaultTokenType") opts in
    let opts := assign_if (negb (on cli "seedStrategy") && truthy (prop cfg "seedStrategy"))
                  "seedStrategy" (prop cfg "seedStrategy") opts in
    if on opts "video" then
      let opts := assign_if (negb (on cli "workflow")
                             && truthy (prop cfg "defaultVideoWorkflow"))
                    "videoWorkflow" (prop cfg "defaultVideoWorkflow") opts in
      let opts := assign_if (negb (on cli "fps") && isFinite (prop cfg "defaultFps"))
                    "fps" (prop cfg "defaultFps") opts in
      let opts := assign_if (negb (on cli "frames") && negb (on cli "duration")
                             && isFinite (prop cfg "defaultDurationSec"))
                    "duration" (prop cfg "defaultDurationSec") opts in
      if negb (on cli "timeout") && isFinite (prop cfg "defaultVideoTimeoutSec")
      then (<["timeout" := seconds_to_ms (prop cfg "defaultVideoTimeoutSec")]> opts, true)
      else (opts, false)
    else if negb (on cli "timeout") && isFinite (prop cfg "defaultImageTimeoutSec")
    then (<["timeout" := seconds_to_ms (prop cfg "defaultImageTimeoutSec")]> opts, true)
    else (opts, false)
  else (opts, false).

(* ================================================================== *)
(** * Validation of the merged options *)
(* ================================================================== *)

Definition validateTokenType (opts : obj) : result obj :=
  if on opts "tokenType" then
    token ← lowered (opts !!! "tokenType");
    _ ← reject_if (negb (token =? "spark") && negb (token =? "sogni")) TokenTypeInvalid;
    Ok (<["tokenType" := VStr token]> opts)
  else Ok opts.

Definition validateSeedStrategy (opts : obj) : result obj :=
  if on opts "seedStrategy" then
    normalizedStrategy ← normalizeSeedStrategy (opts !!! "seedStrategy");
    _ ← reject_if (negb (truthy normalizedStrategy)) SeedStrategyInvalid;
    Ok (<["seedStrategy" := normalizedStrategy]> opts)
  else Ok opts.

Definition validateStepsGuidance (cli opts : obj) : result unit :=
  _ ← reject_if (on cli "steps" && negb (isFinite (opts !!! "steps"))) StepsNotNumber;
  reject_if (on cli "guidance" && negb (isFinite (opts !!! "guidance"))) GuidanceNotNumber.

(* ================================================================== *)
(** * Workflow resolution *)
(* ================================================================== *)

(** The block under "Normalize/validate video workflow before applying
    defaults". *)
Definition resolveWorkflow (cfg : value) (opts : obj) : result obj :=
  if on opts "video" then
    opts ← (if on opts "videoWorkflow" then
              normalized ← normalizeVideoWorkflow (opts !!! "videoWorkflow");
              _ ← reject_if (negb (truthy normalized))
                    (UnknownWorkflow (opts !!! "videoWorkflow"));
              Ok (<["videoWorkflow" := normalized]> opts)
            else Ok opts);
    workflowFromModel ← inferVideoWorkflowFromModel (opts !!! "model");
    _ ← reject_if (on opts "videoWorkflow" && truthy workflowFromModel
                   && str_neq (opts !!! "videoWorkflow") workflowFromModel)
          (WorkflowModelMismatch (opts !!! "videoWorkflow") (opts !!! "model"));
    if negb (on opts "videoWorkflow") then
      Ok (<["videoWorkflow" :=
              js_or (js_or (js_or workflowFromModel (inferVideoWorkflowFromAssets opts))
                           (prop cfg "defaultVideoWorkflow"))
                    (VStr "t2v")]> opts)
    else Ok opts
  else Ok opts.

(** "Resolve --last-image after workflow is known". *)
Definition resolveLastImage (opts : obj) : obj :=
  if on opts "_lastImagePath" then
    let opts :=
      if on opts "video" then
        if workflowRequiresImage (opts !!! "videoWorkflow") then
          assign_if (negb (on opts "refImage")) "refImage" (opts !!! "_lastImagePath") opts
        else opts
      else <["contextImages" := push (opts !!! "contextImages") (opts !!! "_lastImagePath")]> opts in
    delete "_lastImagePath" opts
  else opts.

(** "Set defaults based on type and context".  The two tables are read
    for their own properties only. *)
Definition applyDefaults (cfg : value) (cli : obj) (fromConfig : bool) (opts : obj) : obj :=
  let untouched_timeout :=
    negb (on cli "timeout") && negb fromConfig && is_int (opts !!! "timeout") 30000 in
  if on opts "video" then
    let cfgVideoModels := js_or (prop cfg "videoModels") (VObj []) in
    let cfgModel :=
      if on opts "videoWorkflow" then prop_at cfgVideoModels (opts !!! "videoWorkflow")
      else VNull in
    let opts :=
      <["model" :=
          js_or (js_or (js_or (opts !!! "model") cfgModel)
                       (prop_at VIDEO_WORKFLOW_DEFAULT_MODELS (opts !!! "videoWorkflow")))
                (VStr "wan_v2.2-14b-fp8_i2v_lightx2v")]> opts in
    assign_if untouched_timeout "timeout" (VNum (Int 300000)) opts
  else if nonempty (opts !!! "contextImages") then
    let opts :=
      <["model" := js_or (js_or (opts !!! "model") (prop cfg "defaultEditModel"))
                         (VStr "qwen_image_edit_2511_fp8_lightning")]> opts in
    assign_if untouched_timeout "timeout" (VNum (Int 60000)) opts
  else
    <["model" := js_or (js_or (opts !!! "model") (prop cfg "defaultImageModel"))
                       (VStr "z_image_turbo_bf16")]> opts.

Definition requirePrompt (opts : obj) : result unit :=
  reject_if (negb (on opts "prompt")) NoPrompt.

Definition rejectVideoOnly (opts : obj) : result unit :=
  reject_if (negb (on opts "video")
             && (on opts "refAudio" || on opts "refVideo"
                 || on opts "videoWorkflow" || on opts "frames"))
    VideoOnlyOptions.

(* ================================================================== *)
(** * Asset validation *)
(* ================================================================== *)

Definition validateAssets (opts : obj) : result unit :=
  if on opts "video" then
    if is_str (opts !!! "videoWorkflow") "t2v" then
      reject_if (on opts "refImage" || on opts "refImageEnd"
                 || on opts "refAudio" || on opts "refVideo") T2VRejectsAssets
    else if is_str (opts !!! "videoWorkflow") "i2v" then
      _ ← reject_if (negb (on opts "refImage") && negb (on opts "refImageEnd"))
            I2VRequiresImage;
      reject_if (on opts "refAudio" || on opts "refVideo") I2VRejectsAudioVideo
    else if is_str (opts !!! "videoWorkflow") "s2v" then
      _ ← reject_if (negb (on opts "refImage") || negb (on opts "refAudio"))
            S2VRequiresImageAudio;
      reject_if (on opts "refVideo") S2VRejectsVideo
    else if is_str (opts !!! "videoWorkflow") "animate-move"
            || is_str (opts !!! "videoWorkflow") "animate-replace" then
      _ ← reject_if (negb (on opts "refImage") || negb (on opts "refVideo"))
            AnimateRequiresImageVideo;
      reject_if (on opts "refAudio") AnimateRejectsAudio
    else Ok tt
  else Ok tt.

(** [n > max] *)
Definition exceeds (n : nat) (max : number) : bool :=
  match max with
  | Int z => (z <? Z.of_nat n)%Z
  | NegInf => true
  | _ => false
  end.

Definition validateContextImages (env : Env) (opts : obj) : result unit :=
  if nonempty (opts !!! "contextImages") && negb (on opts "video") then
    let maxImages := getMaxContextImages env (opts !!! "model") in
    _ ← reject_if (is_int (VNum maxImages) 0) (ModelWithoutContext (opts !!! "model"));
    reject_if (exceeds (array_length (opts !!! "contextImages")) maxImages)
      (TooManyContextImages (opts !!! "model") maxImages
         (array_length (opts !!! "contextImages")))
  else Ok tt.

(* ================================================================== *)
(** * Seed resolution *)
(* ================================================================== *)

(** "Load last render seed if requested".  The read sits in a [try]
    whose [catch] prints a warning, so the step always completes. *)
Definition loadLastSeed (env : Env) (opts : obj) : obj :=
  if on opts "lastSeed" then
    match lastRenderFile env with
    | NoFile => opts
    | Unparseable => opts
    | Parsed lastRender =>
        if nullish lastRender then opts
        else assign_if (truthy (prop lastRender "seed")) "seed" (prop lastRender "seed") opts
    end
  else opts.

(** The block guarded by [options.seed === null || options.seed ===
    undefined]. *)
Definition deriveSeed (env : Env) (opts : obj) : result obj :=
  if nullish (opts !!! "seed") then
    let strategy :=
      js_or (js_or (opts !!! "seedStrategy") (prop (openclawConfig env) "seedStrategy"))
            (VStr "prompt-hash") in
    n ← normalizeSeedStrategy strategy;
    let normalized := js_or n (VStr "prompt-hash") in
    let opts := <["seedStrategy" := normalized]> opts in
    seed ← (if is_str normalized "random" then generateRandomSeed env
            else computePromptHashSeed opts);
    Ok (<["seed" := seed]> opts)
  else Ok opts.

Definition resolveSeed (env : Env) (opts : obj) : result obj :=
  deriveSeed env (loadLastSeed env opts).

(* ================================================================== *)
(** * The pipeline, from the arguments to the resolved options *)
(* ================================================================== *)

(** From the merge to the resolved workflow.  The boolean is
    [timeoutFromConfig]. *)
Definition resolveUpToWorkflow (env : Env) (st : state) : result (obj * bool) :=
  let cfg := openclawConfig env in
  let cli := cliSet st in
  let '(opts, fromConfig) := mergeConfig cfg cli (options st) in
  opts ← validateTokenType opts;
  opts ← validateSeedStrategy opts;
  _ ← validateStepsGuidance cli opts;
  opts ← resolveWorkflow cfg opts;
  Ok (opts, fromConfig).

(** The stages that follow argument parsing, up to the resolved seed. *)
Definition resolveOptions (env : Env) (st : state) : result obj :=
  '(opts, fromConfig) ← resolveUpToWorkflow env st;
  let opts := resolveLastImage opts in
  let opts := applyDefaults (openclawConfig env) (cliSet st) fromConfig opts in
  _ ← requirePrompt opts;
  _ ← rejectVideoOnly opts;
  _ ← validateAssets opts;
  _ ← validateContextImages env opts;
  resolveSeed env opts.

Definition resolve (env : Env) (args : list string) : result obj :=
  st ← parseArgs env args initial_state;
  resolveOptions env st.

(* ================================================================== *)
(** * The vocabulary of the specification *)
(* ================================================================== *)

(** The video workflows of the requirement table. *)
Inductive workflow :=
| T2V
| I2V
| S2V
| AnimateMove
| AnimateReplace.

Definition workflow_name (w : workflow) : string :=
  match w with
  | T2V => "t2v"
  | I2V => "i2v"
  | S2V => "s2v"
  | AnimateMove => "animate-move"
  | AnimateReplace => "animate-replace"
  end.

(** Which reference assets a request carries. *)
Record assets := Assets {
  has_image : bool;
  has_image_end : bool;
  has_audio : bool;
  has_video : bool
}.

Definition assets_of (opts : obj) : assets :=
  Assets (on opts "refImage") (on opts "refImageEnd")
         (on opts "refAudio") (on opts "refVideo").

(** The requirement table of the specification, row by row. *)
Definition table_accepts (w : workflow) (a : assets) : bool :=
  match w with
  | T2V => negb (has_image a) && negb (has_image_end a)
           && negb (has_audio a) && negb (has_video a)
  | I2V => (has_image a || has_image_end a)
           && negb (has_audio a) && negb (has_video a)
  | S2V => has_image a && has_audio a && negb (has_video a)
  | AnimateMove | AnimateReplace =>
      has_image a && has_video a && negb (has_audio a)
  end.

Inductive asset_kind :=
| Image
| ImageEnd
| Audio
| Video.

Definition carries (a : assets) (k : asset_kind) : bool :=
  match k with
  | Image => has_image a
  | ImageEnd => has_image_end a
  | Audio => has_audio a
  | Video => has_video a
  end.

(** The "Forbidden assets" column of the table. *)
Definition table_forbids (w : workflow) (k : asset_kind) : bool :=
  match w, k with
  | T2V, _ => true
  | I2V, (Audio | Video) => true
  | S2V, Video => true
  | (AnimateMove | AnimateReplace), Audio => true
  | _, _ => false
  end.

(** The fields that have a flag in [cliSet], each with the name of its
    flag. *)
Definition cli_fields : list (string * string) :=
  [("output", "output"); ("model", "model"); ("width", "width");
   ("height", "height"); ("count", "count"); ("timeout", "timeout");
   ("tokenType", "tokenType"); ("steps", "steps"); ("guidance", "guidance");
   ("seed", "seed"); ("seedStrategy", "seedStrategy"); ("video", "video");
   ("workflow", "videoWorkflow"); ("fps", "fps"); ("duration", "duration");
   ("frames", "frames"); ("refImage", "refImage");
   ("refImageEnd", "refImageEnd"); ("refAudio", "refAudio");
   ("refVideo", "refVideo"); ("context", "contextImages")].

(** The slots that the merge can write. *)
Definition merged_fields : list string :=
  ["width"; "height"; "count"; "tokenType"; "seedStrategy";
   "videoWorkflow"; "fps"; "duration"; "timeout"].

(** What a run leaves in one slot of the options. *)
Definition slot (k : string) (r : result obj) : result value :=
  (λ opts : obj, opts !!! k) <$> r.

(** The arguments parsed, then the stages up to the resolved workflow. *)
Definition resolvedWorkflow (env : Env) (args : list string) : result value :=
  st ← parseArgs env args initial_state;
  '(opts, _) ← resolveUpToWorkflow env st;
  Ok (opts !!! "videoWorkflow").


(** A 32-bit unsigned integer. *)
Definition is_uint32 (v : value) : bool :=
  match v with
  | VNum (Int z) => (0 <=? z)%Z && (z <? 2 ^ 32)%Z
  | _ => false
  end.

(** The tuple of which the prompt-hash seed is said to be a function:
    prompt, model, workflow or ['image'], width, height, the four
    reference assets and the context images, each asset defaulted to an
    empty value when absent. *)
Definition hash_tuple (opts : obj)
  : value * value * value * value * value * value * value * value * value * value :=
  (js_or (opts !!! "prompt") (VStr EmptyString),
   js_or (opts !!! "model") (VStr EmptyString),
   (if on opts "video" then opts !!! "videoWorkflow" else VStr "image"),
   opts !!! "width",
   opts !!! "height",
   js_or (opts !!! "refImage") (VStr EmptyString),
   js_or (opts !!! "refImageEnd") (VStr EmptyString),
   js_or (opts !!! "refAudio") (VStr EmptyString),
   js_or (opts !!! "refVideo") (VStr EmptyString),
   js_or (opts !!! "contextImages") (VArr [])).

(** The seed that a last-render record offers to [--last-seed]: its
    [seed] property when that is truthy. *)
Definition recorded_seed (f : last_render_file) : option value :=
  match f with
  | Parsed record =>
      if truthy (prop record "seed") then Some (prop record "seed") else None
  | _ => None
  end.


(** The same environment with another last-render file. *)
Definition with_last_render (f : last_render_file) (env : Env) : Env :=
  {| openclawConfig := openclawConfig env;
     lastRenderFile := f;
     fileExists := fileExists env;
     entropy := entropy env;
     getMaxContextImages := getMaxContextImages env;
     parseFloat := parseFloat env |}.

(** The same environment with another plugin configuration. *)
Definition with_config (cfg : value) (env : Env) : Env :=
  {| openclawConfig := cfg;
     lastRenderFile := lastRenderFile env;
     fileExists := fileExists env;
     entropy := entropy env;
     getMaxContextImages := getMaxContextImages env;
     parseFloat := parseFloat env |}.

(** Two environments for the examples: no plugin configuration and no
    last render; and a plugin configuration whose only entry is
    [defaultVideoWorkflow: 'i2v']. *)
Definition bare_env : Env :=
  {| openclawConfig := VNull;
     lastRenderFile := NoFile;
     fileExists := fun _ => false;
     entropy := fun _ => x2a;
     getMaxContextImages := fun _ => Int 3;
     parseFloat := fun _ => NaN |}.

Definition i2v_default_env : Env :=
  {| openclawConfig := VObj [("defaultVideoWorkflow", VStr "i2v")];
     lastRenderFile := NoFile;
     fileExists := fun _ => false;
     entropy := fun _ => x2a;
     getMaxContextImages := fun _ => Int 3;
     parseFloat := fun _ => NaN |}.

(** ** Sample inputs *)

(** [--video --ref a.jpg --ref-video m.mp4 "p"]: the assets of an
    animate-move request, no [--workflow], no [--model]. *)
Definition animate_args : list string :=
  ["--video"; "--ref"; "a.jpg"; "--ref-video"; "m.mp4"; "p"].

(** [--video -m wan_v2.2-14b-fp8_t2v_lightx2v "p"]: a text-to-video
    model, no [--workflow]. *)
Definition t2v_model_args : list string :=
  ["--video"; "-m"; "wan_v2.2-14b-fp8_t2v_lightx2v"; "p"].

(** [--seed 42 --seed-strategy random "p"] and what parsing makes of it. *)
Definition seed42_args : list string :=
  ["--seed"; "42"; "--seed-strategy"; "random"; "p"].

Definition seed42_state : state :=
  State (<["prompt" := VStr "p"]>
           (<["seedStrategy" := VStr "random"]>
              (<["seed" := VNum (Int 42)]> initial_options)))
        (<["seedStrategy" := VBool true]>
           (<["seed" := VBool true]> initial_cliSet))
        false.

(** A plugin configuration with defaults for the width, the height and
    the seed strategy; the flags of a user who gave [--width 768]. *)
Definition sample_config : value :=
  VObj [("defaultWidth", VNum (Int 1024)); ("defaultHeight", VNum (Int 1024));
        ("seedStrategy", VStr "random")].

Definition sample_cliSet : obj := <["width" := VBool true]> initial_cliSet.

Definition sample_options : obj :=
  <["prompt" := VStr "a cat wearing a hat"]>
    (<["width" := VNum (Int 768)]> initial_options).

(** A sound-to-video request that carries its image and its audio. *)
Definition s2v_options : obj :=
  <["refAudio" := VStr "speech.m4a"]>
    (<["refImage" := VStr "a.jpg"]>
       (<["videoWorkflow" := VStr "s2v"]>
          (<["video" := VBool true]> sample_options))).

(** The options of [sogni-gen "a cat wearing a hat"] where the seed is
    derived, and the same request with fields outside the hashed tuple
    changed and an absent asset written as the empty string. *)
Definition cat_options : obj :=
  <["model" := VStr "z_image_turbo_bf16"]>
    (<["prompt" := VStr "a cat wearing a hat"]> initial_options).

Definition cat_options_again : obj :=
  <["refImage" := VStr EmptyString]>
    (<["steps" := VNum (Int 4)]>
       (<["quiet" := VBool true]> cat_options)).

Definition cat_seed : Z := 3723715998.


Definition cat_state : state :=
  State (<["prompt" := VStr "a cat wearing a hat"]> initial_options)
        initial_cliSet false.

(** [--last-seed] on top of an explicit seed of 42, and a last-render
    record whose seed is 7. *)
Definition reseed_options : obj :=
  <["lastSeed" := VBool true]> (<["seed" := VNum (Int 42)]> cat_options).

Definition seed7_record : value :=
  VObj [("prompt", VStr "a dog"); ("seed", VNum (Int 7))].

(* ================================================================== *)
(** * The request that [main] sends *)
(* ================================================================== *)

(** [a ?? b] *)
Definition js_coalesce (a b : value) : value := if nullish a then b else a.

(** The decimal numeral of an array index. *)
Definition index_name (i : nat) : string := NilEmpty.string_of_uint (Nat.to_uint i).

(** [table[key]] where [table] is truthy: an own property of an object,
    an element or the length of an array.  What a primitive or the
    prototype of an object answers is a function or a number, which
    [getModelDefaults] discards as it discards [undefined] (the one
    exception, [__proto__], is an object with no [steps] and no
    [guidance], and [main] reads nothing else from it). *)
Definition entry_of (table : value) (key : string) : value :=
  match table with
  | VObj ps => assoc key ps
  | VArr items =>
      if key =? "length" then VNum (Int (Z.of_nat (List.length items)))
      else match List.find (λ i, index_name i =? key) (seq 0 (List.length items)) with
           | Some i => nth i items VUndef
           | None => VUndef
           end
  | _ => VUndef
  end.

(** [typeof v === 'object'] *)
Definition is_object (v : value) : bool :=
  match v with
  | VNull | VArr _ | VObj _ => true
  | _ => false
  end.

Definition getModelDefaults (modelId config : value) : value :=
  if negb (truthy modelId) || negb (truthy (prop config "modelDefaults")) then VNull
  else
    let entry := entry_of (prop config "modelDefaults") (to_string modelId) in
    if negb (truthy entry) || negb (is_object entry) then VNull else entry.

(** A [Buffer], presented as the array of its bytes. *)
Definition Buffer (bytes : buffer) : value :=
  VArr (map (λ b, VNum (Int (Z_of_byte b))) bytes).

(** [o.k = v] on an object: the property is replaced where it is, or
    added after the others. *)
Fixpoint assoc_set (k : string) (v : value) (ps : list (string * value))
  : list (string * value) :=
  match ps with
  | [] => [(k, v)]
  | (k', v') :: rest =>
      if String.eqb k k' then (k, v) :: rest else (k', v') :: assoc_set k v rest
  end.

Definition set_prop (k : string) (v : value) (o : value) : value :=
  match o with
  | VObj ps => VObj (assoc_set k v ps)
  | other => other
  end.

(** [if (c) o.k = v;] *)
Definition set_prop_if (c : bool) (k : string) (v : value) (o : value) : value :=
  if c then set_prop k v o else o.

(** [k in o], for an own property. *)
Definition has_prop (o : value) (k : string) : bool :=
  match o with
  | VObj ps => existsb (λ p, String.eqb k p.1) ps
  | _ => false
  end.

(** [model.includes('lightning')]: on a string, on an array; a TypeError
    on anything else. *)
Definition includes_lightning (model : value) : option bool :=
  match model with
  | VStr s => Some (includes s "lightning")
  | VArr items => Some (existsb (λ x, is_str x "lightning") items)
  | _ => None
  end.

(** The three calls in which the request leaves the script. *)
Inductive request :=
| createVideoProject (projectConfig : value)
| createImageEditProject (editConfig : value)
| createImageProject (projectConfig : value).

Definition request_config (r : request) : value :=
  match r with
  | createVideoProject c | createImageEditProject c | createImageProject c => c
  end.

Section Request.

(** What [fetch] or [readFileSync] delivers for a path or a URL, [None]
    when it fails. *)
Variable media : string → option buffer.

(** The values of the literals [3.5] and [7.5], which are not among the
    numbers of [number]. *)
Variables guidance_lightning guidance_full : value.

(** [await fetchMediaBuffer(pathOrUrl)]; [None] stands for the rejection
    that the [catch] of [main] reports before [process.exit(1)]. *)
Definition fetchMediaBuffer (pathOrUrl : value) : option value :=
  match pathOrUrl with
  | VStr s => Buffer <$> media s
  | _ => None
  end.

(** [p ? await fetchMediaBuffer(p) : undefined] *)
Definition fetch_if_given (p : value) : option value :=
  if truthy p then fetchMediaBuffer p else Some VUndef.

Definition videoProjectConfig (cfg : value) (opts : obj) : option value :=
  imageBuffer ← fetch_if_given (opts !!! "refImage");
  endImageBuffer ← fetch_if_given (opts !!! "refImageEnd");
  audioBuffer ← fetch_if_given (opts !!! "refAudio");
  videoBuffer ← fetch_if_given (opts !!! "refVideo");
  let modelDefaults := getModelDefaults (opts !!! "model") cfg in
  let steps := js_coalesce (opts !!! "steps") (prop modelDefaults "steps") in
  let guidance := js_coalesce (opts !!! "guidance") (prop modelDefaults "guidance") in
  let projectConfig :=
    VObj [("modelId", opts !!! "model");
          ("positivePrompt", opts !!! "prompt");
          ("negativePrompt", VStr EmptyString);
          ("stylePrompt", VStr EmptyString);
          ("numberOfMedia", opts !!! "count");
          ("referenceImage", imageBuffer);
          ("fps", opts !!! "fps");
          ("width", opts !!! "width");
          ("height", opts !!! "height");
          ("tokenType", js_or (opts !!! "tokenType") (VStr "spark"));
          ("waitForCompletion", VBool false)] in
  let projectConfig :=
    if on opts "frames" then set_prop "frames" (opts !!! "frames") projectConfig
    else set_prop "duration" (opts !!! "duration") projectConfig in
  let projectConfig :=
    set_prop_if (truthy endImageBuffer) "referenceImageEnd" endImageBuffer projectConfig in
  let projectConfig :=
    set_prop_if (truthy audioBuffer) "referenceAudio" audioBuffer projectConfig in
  let projectConfig :=
    set_prop_if (truthy videoBuffer) "referenceVideo" videoBuffer projectConfig in
  let projectConfig :=
    set_prop_if (negb (nullish (opts !!! "seed"))) "seed" (opts !!! "seed") projectConfig in
  let projectConfig := set_prop_if (truthy steps) "steps" steps projectConfig in
  let projectConfig :=
    set_prop_if (negb (nullish guidance)) "guidance" guidance projectConfig in
  Some projectConfig.

(** [a ?? (model.includes('lightning') ? fast : full)] *)
Definition or_by_model (a : value) (model fast full : value) : option value :=
  if nullish a then
    lightning ← includes_lightning model;
    Some (if lightning : bool then fast else full)
  else Some a.

Definition context_items (v : value) : list value :=
  match v with
  | VArr items => items
  | _ => []
  end.

Definition editConfig (cfg : value) (opts : obj) : option value :=
  contextBuffers ← mapM fetchMediaBuffer (context_items (opts !!! "contextImages"));
  let modelDefaults := getModelDefaults (opts !!! "model") cfg in
  steps ← or_by_model (js_coalesce (opts !!! "steps") (prop modelDefaults "steps"))
            (opts !!! "model") (VNum (Int 4)) (VNum (Int 20));
  guidance ← or_by_model
               (js_coalesce (opts !!! "guidance") (prop modelDefaults "guidance"))
               (opts !!! "model") guidance_lightning guidance_full;
  let editConfig :=
    VObj [("modelId", opts !!! "model");
          ("positivePrompt", opts !!! "prompt");
          ("contextImages", VArr contextBuffers);
          ("numberOfMedia", opts !!! "count");
          ("width", opts !!! "width");
          ("height", opts !!! "height");
          ("steps", steps);
          ("guidance", guidance);
          ("tokenType", js_or (opts !!! "tokenType") (VStr "spark"))] in
  Some (set_prop_if (negb (nullish (opts !!! "seed"))) "seed" (opts !!! "seed") editConfig).

Definition imageProjectConfig (cfg : value) (opts : obj) : option value :=
  let modelDefaults := getModelDefaults (opts !!! "model") cfg in
  let guidance :=
    js_coalesce (js_coalesce (opts !!! "guidance") (prop modelDefaults "guidance"))
                (VNum (Int 1)) in
  let steps := js_coalesce (opts !!! "steps") (prop modelDefaults "steps") in
  let projectConfig :=
    VObj [("modelId", opts !!! "model");
          ("positivePrompt", opts !!! "prompt");
          ("negativePrompt", VStr EmptyString);
          ("stylePrompt", VStr EmptyString);
          ("numberOfMedia", opts !!! "count");
          ("tokenType", js_or (opts !!! "tokenType") (VStr "spark"));
          ("waitForCompletion", VBool false);
          ("sizePreset", VStr "custom");
          ("width", opts !!! "width");
          ("height", opts !!! "height");
          ("guidance", guidance)] in
  let projectConfig := set_prop_if (truthy steps) "steps" steps projectConfig in
  Some (set_prop_if (negb (nullish (opts !!! "seed"))) "seed" (opts !!! "seed")
          projectConfig).

(** The request that [main] makes of the resolved options. *)
Definition buildRequest (cfg : value) (opts : obj) : option request :=
  if on opts "video" then createVideoProject <$> videoProjectConfig cfg opts
  else if nonempty (opts !!! "contextImages")
       then createImageEditProject <$> editConfig cfg opts
  else createImageProject <$> imageProjectConfig cfg opts.

End Request.

(* ================================================================== *)
(** * Credentials *)
(* ================================================================== *)

(** [s.split(sep)] for a separator of one character. *)
Fixpoint split_on (sep : ascii) (s : string) : list string :=
  match s with
  | EmptyString => [EmptyString]
  | String c rest =>
      if Ascii.eqb c sep then EmptyString :: split_on sep rest
      else match split_on sep rest with
           | piece :: pieces => String c piece :: pieces
           | [] => [String c EmptyString]
           end
  end.

Definition string_rev (s : string) : string :=
  string_of_list_ascii (rev (list_ascii_of_string s)).

(** The white space of [skip_white], read from the end of the string
    backwards. *)
Fixpoint skip_white_back (s : string) : string :=
  match s with
  | String "009"%char r | String "010"%char r | String "011"%char r
  | String "012"%char r | String "013"%char r | String " "%char r => skip_white_back r
  | String "160"%char (String "194"%char r) => skip_white_back r
  | String "191"%char (String "187"%char (String "239"%char r)) => skip_white_back r
  | String "128"%char (String "154"%char (String "225"%char r)) => skip_white_back r
  | String "128"%char (String "128"%char (String "227"%char r)) => skip_white_back r
  | String "159"%char (String "129"%char (String "226"%char r)) => skip_white_back r
  | String c (String "128"%char (String "226"%char r)) =>
      let n := nat_of_ascii c in
      if ((128 <=? n)%nat && (n <=? 138)%nat) || (n =? 168)%nat || (n =? 169)%nat
         || (n =? 175)%nat
      then skip_white_back r else s
  | _ => s
  end.

(** [s.trim()] *)
Definition trim (s : string) : string :=
  string_rev (skip_white_back (string_rev (skip_white s))).

Definition nonempty_string (s : string) : bool :=
  match s with
  | EmptyString => false
  | _ => true
  end.

(** One turn of the loop over the lines:
    [const [key, val] = line.split('='); if (key && val) creds[key.trim()] = val.trim();]
    An assignment to [__proto__] leaves a string aside. *)
Definition readLine (creds : obj) (line : string) : obj :=
  match split_on "=" line with
  | key :: val :: _ =>
      if nonempty_string key && nonempty_string val && negb (trim key =? "__proto__")
      then <[trim key := VStr (trim val)]> creds
      else creds
  | _ => creds
  end.

(** The file at [~/.config/sogni/credentials]. *)
Inductive credentials_file :=
| NoCredentialsFile
| UnreadableCredentials
| CredentialsFile (content : string).

Inductive loaded :=
| Credentials (creds : obj)
| NoCredentialsFound
| ReadFailure.

(** [loadCredentials()], from the file and from the two variables of the
    environment. *)
Definition loadCredentials (file : credentials_file) (env_username env_password : value)
  : loaded :=
  let from_environment :=
    if truthy env_username && truthy env_password
    then Credentials (<["SOGNI_PASSWORD" := env_password]>
                        (<["SOGNI_USERNAME" := env_username]> ∅))
    else NoCredentialsFound in
  match file with
  | NoCredentialsFile => from_environment
  | UnreadableCredentials => ReadFailure
  | CredentialsFile content =>
      let creds := fold_left readLine (split_on "010" content) ∅ in
      if on creds "SOGNI_USERNAME" && on creds "SOGNI_PASSWORD" then Credentials creds
      else from_environment
  end.

(** The character occurs in the string. *)
Fixpoint has_char (c : ascii) (s : string) : bool :=
  match s with
  | EmptyString => false
  | String c' rest => Ascii.eqb c' c || has_char c rest
  end.

(* ================================================================== *)
(** * Further vocabulary *)
(* ================================================================== *)

(** Every name that the parsing loop compares an argument with. *)
Definition known_flags : list string :=
  ["-o"; "--output"; "-m"; "--model"; "-w"; "--width"; "-h"; "--height";
   "-n"; "--count"; "-t"; "--timeout"; "--token-type"; "--token"; "--steps";
   "--guidance"; "-s"; "--seed"; "--seed-strategy"; "--last-seed"; "--reseed";
   "--video"; "-v"; "--workflow"; "--fps"; "--duration"; "--frames";
   "--ref"; "--reference"; "--ref-end"; "--end"; "--ref-audio"; "--audio";
   "--ref-video"; "-c"; "--context"; "--last-image"; "--last"; "--json";
   "-q"; "--quiet"; "--help"].

(** Until its flag is met, a field holds the value of the literal that
    initialises [options]. *)
Definition keeps_defaults (st : state) : Prop :=
  ∀ flag field, In (flag, field) cli_fields → on (cliSet st) flag = false →
                options st !!! field = initial_options !!! field.

(** A last-render file on which [--last-image] does not throw. *)
Definition readable_record (f : last_render_file) : Prop :=
  match f with
  | NoFile => True
  | Unparseable => False
  | Parsed record => nullish record = false
  end.

(** The plugin's timeout entry that applies to a request. *)
Definition timeout_key (opts : obj) : string :=
  if on opts "video" then "defaultVideoTimeoutSec" else "defaultImageTimeoutSec".

(** The assets with which a workflow inferred from them is accepted: a
    video or an audio reference comes with a reference image, and the two
    do not come together. *)
Definition inference_accepts (a : assets) : bool :=
  (negb (has_video a || has_audio a) || has_image a)
  && negb (has_video a && has_audio a).

(** ** Further sample inputs *)

(** What [--seed 42 --seed-strategy random "p"] resolves to without a
    plugin configuration. *)
Definition seed42_resolved_options : obj :=
  <["model" := VStr "z_image_turbo_bf16"]> (options seed42_state).

(** The same command line with [-m flux1-schnell --token-type SPARK], and
    what it resolves to. *)
Definition flux_state : state :=
  set_from_cli "tokenType" "tokenType" (VStr "SPARK")
    (set_from_cli "model" "model" (VStr "flux1-schnell") seed42_state).

Definition flux_resolved : obj :=
  <["tokenType" := VStr "spark"]> (options flux_state).

(** [--video --seed 7 "p"], what parsing makes of it and what it resolves
    to: without a plugin configuration, and with one whose only entry is
    a video timeout of 30 seconds. *)
Definition clip_args : list string := ["--video"; "--seed"; "7"; "p"].

Definition clip_state : state :=
  set_option "prompt" (VStr "p")
    (set_from_cli "seed" "seed" (VNum (Int 7))
       (set_from_cli "video" "video" (VBool true) initial_state)).

Definition clip_resolved : obj :=
  <["timeout" := VNum (Int 300000)]>
    (<["model" := VStr "wan_v2.2-14b-fp8_t2v_lightx2v"]>
       (<["videoWorkflow" := VStr "t2v"]> (options clip_state))).

Definition studio_env : Env :=
  with_config (VObj [("defaultVideoTimeoutSec", VNum (Int 30))]) bare_env.

Definition studio_clip_resolved : obj :=
  <["timeout" := VNum (Int 30000)]> clip_resolved.

(** [--frames 48 "a cat wearing a hat"], without [--video]. *)
Definition frames_state : state :=
  set_from_cli "frames" "frames" (VNum (Int 48)) cat_state.

(** An image-to-video request whose only image is the one of
    [--last-image], and an image request with [--last-image]. *)
Definition i2v_last_options : obj :=
  <["_lastImagePath" := VStr "last.png"]>
    (<["videoWorkflow" := VStr "i2v"]>
       (<["video" := VBool true]> sample_options)).

Definition edit_last_options : obj :=
  <["_lastImagePath" := VStr "last.png"]> sample_options.

(** A world in which no asset can be fetched, and stand-ins for the two
    guidance literals. *)
Definition no_media : string → option buffer := λ _, None.

Definition guidance_3_5 : value := VStr "3.5".
Definition guidance_7_5 : value := VStr "7.5".

(** The requests built of [seed42_resolved_options], as it is and with
    [--steps 8], and of [clip_resolved]. *)
Definition seed42_request : request :=
  createImageProject
    (VObj [("modelId", VStr "z_image_turbo_bf16");
           ("positivePrompt", VStr "p");
           ("negativePrompt", VStr EmptyString);
           ("stylePrompt", VStr EmptyString);
           ("numberOfMedia", VNum (Int 1));
           ("tokenType", VStr "spark");
           ("waitForCompletion", VBool false);
           ("sizePreset", VStr "custom");
           ("width", VNum (Int 512));
           ("height", VNum (Int 512));
           ("guidance", VNum (Int 1));
           ("seed", VNum (Int 42))]).

Definition seed42_steps8_request : request :=
  createImageProject
    (VObj [("modelId", VStr "z_image_turbo_bf16");
           ("positivePrompt", VStr "p");
           ("negativePrompt", VStr EmptyString);
           ("stylePrompt", VStr EmptyString);
           ("numberOfMedia", VNum (Int 1));
           ("tokenType", VStr "spark");
           ("waitForCompletion", VBool false);
           ("sizePreset", VStr "custom");
           ("width", VNum (Int 512));
           ("height", VNum (Int 512));
           ("guidance", VNum (Int 1));
           ("steps", VNum (Int 8));
           ("seed", VNum (Int 42))]).

Definition clip_request_config : value :=
  VObj [("modelId", VStr "wan_v2.2-14b-fp8_t2v_lightx2v");
        ("positivePrompt", VStr "p");
        ("negativePrompt", VStr EmptyString);
        ("stylePrompt", VStr EmptyString);
        ("numberOfMedia", VNum (Int 1));
        ("referenceImage", VUndef);
        ("fps", VNum (Int 16));
        ("width", VNum (Int 512));
        ("height", VNum (Int 512));
        ("tokenType", VStr "spark");
        ("waitForCompletion", VBool false);
        ("duration", VNum (Int 5));
        ("seed", VNum (Int 7))].

(** A credentials file with blanks around a name, a carriage return at
    the end of a line and a password that contains [=]; and what is read
    from it. *)
Definition credentials_sample : string :=
  "SOGNI_USERNAME = u" ++ String "013" (String "010" "SOGNI_PASSWORD=p=q").

Definition credentials_read : obj :=
  <["SOGNI_PASSWORD" := VStr "p"]> (<["SOGNI_USERNAME" := VStr "u"]> ∅).

(* ================================================================== *)
(** * Properties *)
(* ================================================================== *)

(** ** Reading through the assignments of a stage *)

Lemma assign_if_other c k v (o : obj) k' :
  k ≠ k' → assign_if c k v o !!! k' = o !!! k'.
Proof.
  intros Hne. unfold assign_if. destruct c; [|done].
  by rewrite lookup_total_insert_ne.
Qed.

Lemma on_assign_if_other c k v (o : obj) k' :
  k ≠ k' → on (assign_if c k v o) k' = on o k'.
Proof. intros Hne. unfold on. by rewrite assign_if_other. Qed.

(** A concrete name is not in a list of other concrete names. *)
Ltac not_listed :=
  let H := fresh in
  intros H; repeat (apply elem_of_cons in H as [H|H]; [discriminate H|]);
  by apply elem_of_nil in H.

Ltac through_assignments :=
  repeat first
    [ rewrite lookup_total_insert_ne by done
    | rewrite assign_if_other by done ].

Ltac split_conditionals :=
  repeat match goal with
         | |- context [if ?c then _ else _] => destruct c
         end.

Lemma bind_Ok {A B} (m : result A) (f : A → result B) (b : B) :
  m ≫= f = Ok b → ∃ a, m = Ok a ∧ f a = Ok b.
Proof. destruct m; simpl; try done. eauto. Qed.

Lemma slot_Ok k (r : result obj) v :
  slot k r = Ok v ↔ ∃ opts : obj, r = Ok opts ∧ opts !!! k = v.
Proof.
  split.
  - destruct r as [opts| | |]; try done. intros [= <-]. by exists opts.
  - by intros (opts & -> & <-).
Qed.

(* ------------------------------------------------------------------ *)
(** ** The configuration merge *)
(* ------------------------------------------------------------------ *)

Section Merge.

Variable cfg : value.
Variables cli opts : obj.

Lemma merge_frame k :
  k ∉ merged_fields → (mergeConfig cfg cli opts).1 !!! k = opts !!! k.
Proof.
  intros Hk. repeat (apply not_elem_of_cons in Hk as [? Hk]).
  unfold mergeConfig. split_conditionals; simpl; by through_assignments.
Qed.

Lemma merge_keeps_cli_value flag field :
  In (flag, field) cli_fields → on cli flag = true →
  (mergeConfig cfg cli opts).1 !!! field = opts !!! field.
Proof.
  intros Hin Hset.
  destruct (decide (field ∈ merged_fields)) as [Hmerged|Hframe];
    [|by apply merge_frame].
  simpl in Hin.
  repeat (destruct Hin as [Hin|Hin]; [injection Hin as <- <-|]); try done;
    try (exfalso; revert Hmerged; clear; not_listed);
    unfold mergeConfig; rewrite ?Hset; simpl.
  all: split_conditionals; simpl.
  all: try by through_assignments.
  all: rewrite ?andb_false_r; simpl; by through_assignments.
Qed.

(** C3.  Command-line values win in the merge.  For every field that has
    a [cliSet] flag, when that flag is set the merged options hold the
    value the options held before the merge, whatever the plugin
    configuration contains; and a slot that the merge did change belongs
    to a field whose flag is not set. *)
Theorem cli_value_wins flag field :
  In (flag, field) cli_fields → on cli flag = true →
  (mergeConfig cfg cli opts).1 !!! field = opts !!! field
  ∧ ∀ k, (mergeConfig cfg cli opts).1 !!! k ≠ opts !!! k →
         ∃ f, In (f, k) cli_fields ∧ on cli f = false.
Proof.
  intros Hin Hset. split; [by apply (merge_keeps_cli_value flag field)|].
  intros k Hchanged.
  destruct (decide (k ∈ merged_fields)) as [Hmerged|Hframe];
    [|by destruct Hchanged; apply merge_frame].
  assert (∃ f, In (f, k) cli_fields) as [f Hf].
  { repeat (apply elem_of_cons in Hmerged as [->|Hmerged];
            [eexists; simpl; eauto 25|]).
    by apply elem_of_nil in Hmerged. }
  exists f. split; [done|].
  destruct (on cli f) eqn:Hon; [|done].
  destruct Hchanged. by apply (merge_keeps_cli_value f k).
Qed.

(** An explicit [--workflow] goes through the merge untouched, together
    with the two other slots that workflow resolution reads. *)
Lemma merge_keeps_explicit_workflow :
  on cli "workflow" = true →
  let merged := (mergeConfig cfg cli opts).1 in
  merged !!! "videoWorkflow" = opts !!! "videoWorkflow"
  ∧ merged !!! "video" = opts !!! "video"
  ∧ merged !!! "model" = opts !!! "model".
Proof.
  intros Hcli merged. split; [|split].
  - apply (merge_keeps_cli_value "workflow" "videoWorkflow");
      [simpl; auto 20|done].
  - apply merge_frame. not_listed.
  - apply merge_frame. not_listed.
Qed.

(** Without [--workflow], the merge hands a plugin default to the
    resolver in the slot of the explicit value. *)
Lemma merge_installs_default_workflow :
  truthy cfg = true → on opts "video" = true → on cli "workflow" = false →
  truthy (prop cfg "defaultVideoWorkflow") = true →
  (mergeConfig cfg cli opts).1 !!! "videoWorkflow" = prop cfg "defaultVideoWorkflow".
Proof.
  intros Hcfg Hvideo Hcli Hdefault. unfold mergeConfig. rewrite Hcfg.
  rewrite !on_assign_if_other, Hvideo, Hcli, Hdefault by done. simpl.
  split_conditionals; simpl; rewrite ?lookup_total_insert_ne by done;
    rewrite !assign_if_other by done; unfold assign_if;
    by rewrite lookup_total_insert_eq.
Qed.

End Merge.

Lemma cli_value_wins_witness :
  on sample_cliSet "width" = true
  ∧ (mergeConfig sample_config sample_cliSet sample_options).1 !!! "width"
    = VNum (Int 768)
  ∧ (mergeConfig sample_config sample_cliSet sample_options).1 !!! "height"
    = VNum (Int 1024).
Proof.
  split; [vm_compute; reflexivity|]. split; [|vm_compute; reflexivity].
  transitivity (sample_options !!! "width"); [|vm_compute; reflexivity].
  apply (cli_value_wins sample_config sample_cliSet sample_options "width" "width");
    [simpl; auto 10 | vm_compute; reflexivity].
Defined.

(* ------------------------------------------------------------------ *)
(** ** Asset validation *)
(* ------------------------------------------------------------------ *)

(** C2.  In video mode, for each of the five workflows, the asset
    validator accepts exactly the asset sets that the requirement table
    accepts and exits with an error on every other one; in particular an
    asset that the table forbids for the workflow is never accepted. *)
Theorem asset_validator_matches_table (opts : obj) (w : workflow) :
  on opts "video" = true →
  opts !!! "videoWorkflow" = VStr (workflow_name w) →
  (table_accepts w (assets_of opts) = true → validateAssets opts = Ok tt)
  ∧ (table_accepts w (assets_of opts) = false → ∃ m, validateAssets opts = Exit1 m)
  ∧ (∀ k, table_forbids w k = true → carries (assets_of opts) k = true →
          ∃ m, validateAssets opts = Exit1 m).
Proof.
  intros Hvideo Hw. unfold validateAssets, assets_of. rewrite Hvideo, Hw.
  destruct (on opts "refImage"), (on opts "refImageEnd"),
           (on opts "refAudio"), (on opts "refVideo");
    destruct w; simpl;
    (split; [|split]); try done; try (intros _; eauto);
    intros [] ? ?; try done; eauto.
Qed.

Lemma asset_validator_matches_table_witness :
  validateAssets s2v_options = Ok tt
  ∧ table_accepts S2V (assets_of s2v_options) = true.
Proof.
  split; [|vm_compute; reflexivity].
  apply (asset_validator_matches_table s2v_options S2V);
    vm_compute; reflexivity.
Defined.

(** The two rejections that the specification lists as scenarios. *)
Lemma i2v_without_image_rejected :
  resolve bare_env ["--video"; "--workflow"; "i2v"; "p"] = Exit1 I2VRequiresImage.
Proof. vm_compute. reflexivity. Qed.

Lemma s2v_without_audio_rejected :
  resolve bare_env ["--video"; "--workflow"; "s2v"; "--ref"; "a.jpg"; "p"]
  = Exit1 S2VRequiresImageAudio.
Proof. vm_compute. reflexivity. Qed.

(* ------------------------------------------------------------------ *)
(** ** Buffers, the digest and the two derivations *)
(* ------------------------------------------------------------------ *)

Lemma Z_of_byte_range b : (0 <= Z_of_byte b < 256)%Z.
Proof. unfold Z_of_byte. pose proof (Byte.to_N_bounded b). lia. Qed.

Lemma readUInt32BE_range buf z :
  readUInt32BE buf = Some z → (0 <= z < 2 ^ 32)%Z.
Proof.
  destruct buf as [|b0 [|b1 [|b2 [|b3 rest]]]]; try done.
  intros [= <-].
  pose proof (Z_of_byte_range b0). pose proof (Z_of_byte_range b1).
  pose proof (Z_of_byte_range b2). pose proof (Z_of_byte_range b3). lia.
Qed.

Lemma read_seed_uint32 buf v : read_seed buf = Ok v → is_uint32 v = true.
Proof.
  unfold read_seed. destruct (readUInt32BE buf) as [z|] eqn:Hz; [|done].
  intros [= <-]. apply readUInt32BE_range in Hz. simpl.
  apply andb_true_intro. split; [apply Z.leb_le | apply Z.ltb_lt]; lia.
Qed.





Lemma generateRandomSeed_uint32 env v :
  generateRandomSeed env = Ok v → is_uint32 v = true.
Proof. apply read_seed_uint32. Qed.

Lemma computePromptHashSeed_uint32 opts v :
  computePromptHashSeed opts = Ok v → is_uint32 v = true.
Proof.
  unfold computePromptHashSeed. destruct (Json.stringify _); [|done].
  apply read_seed_uint32.
Qed.

Lemma hash_tuple_payload (o1 o2 : obj) :
  hash_tuple o1 = hash_tuple o2 → seedPayload o1 = seedPayload o2.
Proof.
  unfold hash_tuple, seedPayload.
  by intros [= -> -> -> -> -> -> -> -> -> ->].
Qed.

Lemma hash_tuple_seed (o1 o2 : obj) :
  hash_tuple o1 = hash_tuple o2 →
  computePromptHashSeed o1 = computePromptHashSeed o2.
Proof.
  intros H. unfold computePromptHashSeed. by rewrite (hash_tuple_payload _ _ H).
Qed.

Lemma hash_tuple_seedStrategy (opts : obj) v :
  hash_tuple (<["seedStrategy" := v]> opts) = hash_tuple opts.
Proof. unfold hash_tuple, on. by rewrite !lookup_total_insert_ne by done. Qed.

(** The embedded SHA-256 on the test vector of the standard. *)
Lemma sha256_abc :
  readUInt32BE (Sha256.digest (utf8 "abc")) = Some 0xba7816bf%Z.
Proof. vm_compute. reflexivity. Qed.

(* ------------------------------------------------------------------ *)
(** ** Stage by stage: the slots a stage can change *)
(* ------------------------------------------------------------------ *)

Lemma validateTokenType_frame (opts r : obj) k :
  validateTokenType opts = Ok r → k ≠ "tokenType" → r !!! k = opts !!! k.
Proof.
  unfold validateTokenType. intros H Hk.
  destruct (on opts "tokenType"); [|by injection H as <-].
  apply bind_Ok in H as (token & _ & H). apply bind_Ok in H as (_ & _ & H).
  injection H as <-. by rewrite lookup_total_insert_ne.
Qed.

Lemma validateSeedStrategy_frame (opts r : obj) k :
  validateSeedStrategy opts = Ok r → k ≠ "seedStrategy" → r !!! k = opts !!! k.
Proof.
  unfold validateSeedStrategy. intros H Hk.
  destruct (on opts "seedStrategy"); [|by injection H as <-].
  apply bind_Ok in H as (n & _ & H). apply bind_Ok in H as (_ & _ & H).
  injection H as <-. by rewrite lookup_total_insert_ne.
Qed.

Lemma resolveWorkflow_frame cfg (opts r : obj) k :
  resolveWorkflow cfg opts = Ok r → k ≠ "videoWorkflow" → r !!! k = opts !!! k.
Proof.
  unfold resolveWorkflow. intros H Hk.
  destruct (on opts "video"); [|by injection H as <-].
  apply bind_Ok in H as (o1 & Ho1 & H).
  assert (o1 !!! k = opts !!! k) as <-.
  { destruct (on opts "videoWorkflow"); [|by injection Ho1 as <-].
    apply bind_Ok in Ho1 as (n & _ & Ho1). apply bind_Ok in Ho1 as (_ & _ & Ho1).
    injection Ho1 as <-. by rewrite lookup_total_insert_ne. }
  apply bind_Ok in H as (m & _ & H). apply bind_Ok in H as (_ & _ & H).
  destruct (negb (on o1 "videoWorkflow")); injection H as <-; [|done].
  by rewrite lookup_total_insert_ne.
Qed.

Lemma resolveLastImage_frame (opts : obj) k :
  k ∉ ["refImage"; "contextImages"; "_lastImagePath"] →
  resolveLastImage opts !!! k = opts !!! k.
Proof.
  intros Hk. repeat (apply not_elem_of_cons in Hk as [? Hk]).
  unfold resolveLastImage.
  split_conditionals; rewrite ?lookup_total_delete_ne by done;
    by through_assignments.
Qed.

Lemma applyDefaults_frame cfg (cli : obj) fromConfig (opts : obj) k :
  k ∉ ["model"; "timeout"] →
  applyDefaults cfg cli fromConfig opts !!! k = opts !!! k.
Proof.
  intros Hk. repeat (apply not_elem_of_cons in Hk as [? Hk]).
  unfold applyDefaults. split_conditionals; by through_assignments.
Qed.

(** Whatever reaches seed resolution carries the [seed] and the
    [lastSeed] that parsing left. *)
Lemma resolveOptions_seed_stage env st (r : obj) :
  resolveOptions env st = Ok r →
  ∃ pre : obj, resolveSeed env pre = Ok r
    ∧ pre !!! "seed" = options st !!! "seed"
    ∧ pre !!! "lastSeed" = options st !!! "lastSeed".
Proof.
  unfold resolveOptions, resolveUpToWorkflow. intros H.
  pose proof (merge_frame (openclawConfig env) (cliSet st) (options st)) as Hmerge.
  destruct (mergeConfig _ _ _) as [o0 fromConfig]. simpl in Hmerge.
  apply bind_Ok in H as ([o3 fc] & Hup & H).
  apply bind_Ok in Hup as (o1 & H1 & Hup). apply bind_Ok in Hup as (o2 & H2 & Hup).
  apply bind_Ok in Hup as (_ & _ & Hup). apply bind_Ok in Hup as (o3' & H3 & Hup).
  injection Hup as -> ->.
  apply bind_Ok in H as (_ & _ & H). apply bind_Ok in H as (_ & _ & H).
  apply bind_Ok in H as (_ & _ & H). apply bind_Ok in H as (_ & _ & H).
  eexists. split; [exact H|].
  split.
  - rewrite applyDefaults_frame, resolveLastImage_frame by not_listed.
    rewrite (resolveWorkflow_frame _ _ _ _ H3) by done.
    rewrite (validateSeedStrategy_frame _ _ _ H2) by done.
    rewrite (validateTokenType_frame _ _ _ H1) by done.
    apply Hmerge. not_listed.
  - rewrite applyDefaults_frame, resolveLastImage_frame by not_listed.
    rewrite (resolveWorkflow_frame _ _ _ _ H3) by done.
    rewrite (validateSeedStrategy_frame _ _ _ H2) by done.
    rewrite (validateTokenType_frame _ _ _ H1) by done.
    apply Hmerge. not_listed.
Qed.

(* ------------------------------------------------------------------ *)
(** ** The two steps of seed resolution *)
(* ------------------------------------------------------------------ *)

Lemma truthy_not_nullish v : truthy v = true → nullish v = false.
Proof. by destruct v. Qed.


Lemma loadLastSeed_keeps env (opts : obj) :
  on opts "lastSeed" = false ∨ recorded_seed (lastRenderFile env) = None →
  loadLastSeed env opts = opts.
Proof.
  unfold loadLastSeed, recorded_seed. intros [->|H]; [done|].
  destruct (on opts "lastSeed"); [|done].
  destruct (lastRenderFile env) as [| |record]; try done.
  destruct (nullish record); [done|].
  by destruct (truthy (prop record "seed")).
Qed.

Lemma loadLastSeed_adopts env (opts : obj) s :
  on opts "lastSeed" = true → recorded_seed (lastRenderFile env) = Some s →
  loadLastSeed env opts = <["seed" := s]> opts.
Proof.
  unfold loadLastSeed, recorded_seed. intros -> H.
  destruct (lastRenderFile env) as [| |record]; try done.
  destruct (truthy (prop record "seed")) eqn:Hseed; [|done].
  injection H as <-.
  destruct record; try done.
Qed.

Lemma deriveSeed_skips env (opts : obj) :
  nullish (opts !!! "seed") = false → deriveSeed env opts = Ok opts.
Proof. unfold deriveSeed. by intros ->. Qed.

Lemma deriveSeed_with_last_render f env (opts : obj) :
  deriveSeed (with_last_render f env) opts = deriveSeed env opts.
Proof. reflexivity. Qed.

Lemma normalizeSeedStrategy_inv v n :
  normalizeSeedStrategy v = Ok n →
  n = VNull ∨ n = VStr "random" ∨ n = VStr "prompt-hash".
Proof.
  unfold normalizeSeedStrategy. destruct (truthy v); simpl; [|intros [= <-]; auto].
  destruct (lowered v) as [s| | |]; simpl; try done.
  destruct (s =? "random"); [intros [= <-]; auto|].
  destruct ((s =? "prompt-hash") || (s =? "prompt_hash")); intros [= <-]; auto.
Qed.


(** What the derivation step returns when it runs. *)
Lemma deriveSeed_derives env (opts r : obj) :
  nullish (opts !!! "seed") = true → deriveSeed env opts = Ok r →
  ∃ strategy seed,
    r = <["seed" := seed]> (<["seedStrategy" := VStr strategy]> opts)
    ∧ is_uint32 seed = true
    ∧ ((strategy = "random" ∧ generateRandomSeed env = Ok seed)
       ∨ (strategy = "prompt-hash" ∧ computePromptHashSeed opts = Ok seed)).
Proof.
  unfold deriveSeed. intros -> H.
  apply bind_Ok in H as (n & Hn & H). apply bind_Ok in H as (seed & Hseed & H).
  injection H as <-.
  apply normalizeSeedStrategy_inv in Hn as [->| [->| ->]]; simpl in *.
  - exists "prompt-hash", seed. split; [done|]. split.
    + by eapply computePromptHashSeed_uint32.
    + right. split; [done|].
      by rewrite <- (hash_tuple_seed _ _
                       (hash_tuple_seedStrategy opts (VStr "prompt-hash"))).
  - exists "random", seed. split; [done|].
    split; [by eapply generateRandomSeed_uint32|]. by left.
  - exists "prompt-hash", seed. split; [done|]. split.
    + by eapply computePromptHashSeed_uint32.
    + right. split; [done|].
      by rewrite <- (hash_tuple_seed _ _
                       (hash_tuple_seedStrategy opts (VStr "prompt-hash"))).
Qed.

(* ------------------------------------------------------------------ *)
(** ** The seed *)
(* ------------------------------------------------------------------ *)

(** C4.  Under the prompt-hash strategy the derived seed is a function of
    the tuple (prompt, model, workflow or 'image', width, height,
    reference image, end image, reference audio, reference video, context
    images), absent assets defaulted to the empty value: two derivations
    that ran under prompt-hash on options with the same tuple produce the
    same seed, which is the digest seed of either tuple. *)
Theorem prompt_hash_seed_deterministic env1 env2 (o1 o2 : obj) seed1 seed2 :
  nullish (o1 !!! "seed") = true → nullish (o2 !!! "seed") = true →
  slot "seedStrategy" (deriveSeed env1 o1) = Ok (VStr "prompt-hash") →
  slot "seedStrategy" (deriveSeed env2 o2) = Ok (VStr "prompt-hash") →
  slot "seed" (deriveSeed env1 o1) = Ok seed1 →
  slot "seed" (deriveSeed env2 o2) = Ok seed2 →
  hash_tuple o1 = hash_tuple o2 →
  seed1 = seed2
  ∧ computePromptHashSeed o1 = Ok seed1
  ∧ computePromptHashSeed o2 = Ok seed2.
Proof.
  intros Hn1 Hn2 Hs1 Hs2 Hv1 Hv2 Htuple.
  apply slot_Ok in Hs1 as (r1 & H1 & Hs1). apply slot_Ok in Hv1 as (? & H1' & Hv1).
  rewrite H1 in H1'. injection H1' as <-.
  apply slot_Ok in Hs2 as (r2 & H2 & Hs2). apply slot_Ok in Hv2 as (? & H2' & Hv2).
  rewrite H2 in H2'. injection H2' as <-.
  apply deriveSeed_derives in H1 as (s1 & v1 & -> & _ & [[-> _]|[_ Hh1]]); [| |done].
  { by rewrite lookup_total_insert_ne, lookup_total_insert_eq in Hs1. }
  apply deriveSeed_derives in H2 as (s2 & v2 & -> & _ & [[-> _]|[_ Hh2]]); [| |done].
  { by rewrite lookup_total_insert_ne, lookup_total_insert_eq in Hs2. }
  rewrite lookup_total_insert_eq in Hv1, Hv2. subst v1 v2.
  split; [|done].
  rewrite (hash_tuple_seed _ _ Htuple), Hh2 in Hh1. by injection Hh1.
Qed.

Lemma prompt_hash_seed_deterministic_witness :
  hash_tuple cat_options = hash_tuple cat_options_again
  ∧ computePromptHashSeed cat_options = Ok (VNum (Int cat_seed))
  ∧ computePromptHashSeed cat_options_again = Ok (VNum (Int cat_seed)).
Proof.
  split; [vm_compute; reflexivity|].
  apply (prompt_hash_seed_deterministic bare_env bare_env
           cat_options cat_options_again (VNum (Int cat_seed)) (VNum (Int cat_seed)));
    vm_compute; reflexivity.
Defined.

(** C5.  An explicit seed is used as it is.  When parsing left a number
    in [options.seed] and [--last-seed] does not override it (the flag
    is off, or the record offers no seed), seed resolution returns the
    options unchanged, so no strategy, plugin configuration or random
    byte is consulted, and every completed resolution carries that seed. *)
Theorem explicit_seed_wins env st n :
  options st !!! "seed" = VNum n →
  on (options st) "lastSeed" = false ∨ recorded_seed (lastRenderFile env) = None →
  resolveSeed env (options st) = Ok (options st)
  ∧ ∀ r : obj, resolveOptions env st = Ok r → r !!! "seed" = VNum n.
Proof.
  intros Hseed Hlast. split.
  - unfold resolveSeed. rewrite loadLastSeed_keeps by done.
    apply deriveSeed_skips. by rewrite Hseed.
  - intros r Hr.
    apply resolveOptions_seed_stage in Hr as (pre & Hr & Hpre & Hpre').
    unfold resolveSeed in Hr. rewrite loadLastSeed_keeps in Hr.
    + rewrite deriveSeed_skips in Hr by (by rewrite Hpre, Hseed).
      injection Hr as <-. by rewrite Hpre.
    + unfold on in *. by rewrite Hpre'.
Qed.

Lemma explicit_seed_wins_witness :
  resolveSeed bare_env (options seed42_state) = Ok (options seed42_state)
  ∧ ∀ r : obj, resolveOptions bare_env seed42_state = Ok r →
               r !!! "seed" = VNum (Int 42).
Proof.
  apply (explicit_seed_wins bare_env seed42_state (Int 42));
    [vm_compute; reflexivity | left; vm_compute; reflexivity].
Defined.

(** [--seed 42 --seed-strategy random "p"], from the arguments on: the
    state that parsing builds, and the run, whatever strategy the plugin
    configuration names. *)
Lemma seed42_parsed env :
  parseArgs env seed42_args initial_state = Ok seed42_state.
Proof. vm_compute. reflexivity. Qed.

Lemma seed42_resolved strategy :
  slot "seed" (resolve (with_config (VObj [("seedStrategy", strategy)]) bare_env)
                 seed42_args)
  = Ok (VNum (Int 42)).
Proof. vm_compute. reflexivity. Qed.

(** C7, counterexample.  [--seed -5] resolves to the seed -5, which is
    not a 32-bit unsigned integer. *)
Lemma explicit_seed_out_of_range :
  ∃ r : obj, resolve bare_env ["--seed"; "-5"; "p"] = Ok r
             ∧ is_uint32 (r !!! "seed") = false.
Proof.
  destruct (proj1 (slot_Ok "seed" (resolve bare_env ["--seed"; "-5"; "p"])
                     (VNum (Int (-5))))) as (r & Hr & Hseed);
    [vm_compute; reflexivity|].
  exists r. split; [exact Hr|]. by rewrite Hseed.
Qed.

(** C7, as amended.  When the seed is derived (no explicit [--seed], and
    [--last-seed] off or finding no recorded seed), every completed
    resolution carries a seed between 0 and 2^32 - 1, under either
    strategy. *)
Theorem derived_seed_is_uint32 env st seed :
  nullish (options st !!! "seed") = true →
  on (options st) "lastSeed" = false ∨ recorded_seed (lastRenderFile env) = None →
  slot "seed" (resolveOptions env st) = Ok seed →
  is_uint32 seed = true.
Proof.
  intros Hseed Hlast Hr. apply slot_Ok in Hr as (r & Hr & <-).
  apply resolveOptions_seed_stage in Hr as (pre & Hr & Hpre & Hpre').
  unfold resolveSeed in Hr. rewrite loadLastSeed_keeps in Hr.
  - apply deriveSeed_derives in Hr as (s & v & -> & Hv & _); [|by rewrite Hpre].
    by rewrite lookup_total_insert_eq.
  - unfold on in *. by rewrite Hpre'.
Qed.

Lemma derived_seed_is_uint32_witness :
  slot "seed" (resolveOptions bare_env cat_state) = Ok (VNum (Int cat_seed))
  ∧ is_uint32 (VNum (Int cat_seed)) = true.
Proof.
  split; [vm_compute; reflexivity|].
  apply (derived_seed_is_uint32 bare_env cat_state);
    [vm_compute; reflexivity | left; vm_compute; reflexivity
    | vm_compute; reflexivity].
Defined.

(** The first scenario of the specification: a prompt and nothing else. *)
Lemma cat_resolved :
  slot "seed" (resolve bare_env ["a cat wearing a hat"]) = Ok (VNum (Int cat_seed))
  ∧ slot "seedStrategy" (resolve bare_env ["a cat wearing a hat"])
    = Ok (VStr "prompt-hash")
  ∧ slot "model" (resolve bare_env ["a cat wearing a hat"])
    = Ok (VStr "z_image_turbo_bf16")
  ∧ slot "width" (resolve bare_env ["a cat wearing a hat"]) = Ok (VNum (Int 512))
  ∧ slot "height" (resolve bare_env ["a cat wearing a hat"]) = Ok (VNum (Int 512)).
Proof. repeat apply conj; vm_compute; reflexivity. Qed.




(** C10.  With [--last-seed] and a last-render record: a truthy recorded
    seed becomes the resolved seed whatever [options.seed] held, an
    explicit seed included; a recorded seed that is 0, absent or falsy
    in another way leaves resolution as it is without a last-render
    file. *)
Theorem last_seed_record_overrides env (opts : obj) record :
  on opts "lastSeed" = true → lastRenderFile env = Parsed record →
  (truthy (prop record "seed") = true →
   resolveSeed env opts = Ok (<["seed" := prop record "seed"]> opts))
  ∧ (truthy (prop record "seed") = false →
     resolveSeed env opts = resolveSeed (with_last_render NoFile env) opts).
Proof.
  intros Hlast Hfile. split; intros Hseed; unfold resolveSeed.
  - rewrite (loadLastSeed_adopts env opts (prop record "seed")); [|done|].
    + apply deriveSeed_skips. rewrite lookup_total_insert_eq.
      by apply truthy_not_nullish.
    + unfold recorded_seed. by rewrite Hfile, Hseed.
  - rewrite deriveSeed_with_last_render.
    rewrite !loadLastSeed_keeps; [done| |].
    + by right.
    + right. unfold recorded_seed. by rewrite Hfile, Hseed.
Qed.

Lemma last_seed_record_overrides_witness :
  reseed_options !!! "seed" = VNum (Int 42)
  ∧ resolveSeed (with_last_render (Parsed seed7_record) bare_env) reseed_options
    = Ok (<["seed" := VNum (Int 7)]> reseed_options).
Proof.
  split; [vm_compute; reflexivity|].
  apply (last_seed_record_overrides
           (with_last_render (Parsed seed7_record) bare_env)
           reseed_options seed7_record);
    [vm_compute; reflexivity | reflexivity | vm_compute; reflexivity].
Defined.

(* ------------------------------------------------------------------ *)
(** ** Workflow resolution *)
(* ------------------------------------------------------------------ *)

(** The workflow names are the only values that normalisation returns,
    besides [null]. *)
Lemma normalizeVideoWorkflow_inv v n :
  normalizeVideoWorkflow v = Ok n →
  n = VNull ∨ ∃ w, n = VStr (workflow_name w).
Proof.
  unfold normalizeVideoWorkflow. destruct (truthy v); simpl; [|intros [= <-]; auto].
  destruct (lowered v) as [s| | |]; simpl; try done.
  split_conditionals; intros [= <-]; auto; right;
    [by exists T2V|by exists I2V|by exists S2V
    |by exists AnimateMove|by exists AnimateReplace].
Qed.

Lemma normalizeVideoWorkflow_truthy v w :
  normalizeVideoWorkflow v = Ok (VStr w) → truthy v = true.
Proof. unfold normalizeVideoWorkflow. by destruct (truthy v). Qed.

Section ExplicitWorkflow.

Variable cfg : value.
Variables cli opts : obj.
Variable w : workflow.

Hypothesis video_mode : on opts "video" = true.
Hypothesis workflow_flag : on cli "workflow" = true.
Hypothesis workflow_value :
  normalizeVideoWorkflow (opts !!! "videoWorkflow") = Ok (VStr (workflow_name w)).

(** An explicit workflow that the model contradicts is rejected, whatever
    the plugin configuration holds. *)
Lemma explicit_workflow_mismatch_fails m :
  inferVideoWorkflowFromModel (opts !!! "model") = Ok (VStr (workflow_name m)) →
  w ≠ m →
  resolveWorkflow cfg (mergeConfig cfg cli opts).1
  = Exit1 (WorkflowModelMismatch (VStr (workflow_name w)) (opts !!! "model")).
Proof.
  intros Hm Hne.
  destruct (merge_keeps_explicit_workflow cfg cli opts workflow_flag)
    as (Hwf & Hv & Hmodel).
  set (merged := (mergeConfig cfg cli opts).1) in *.
  unfold resolveWorkflow, on in *. rewrite Hv, video_mode, Hwf.
  rewrite (normalizeVideoWorkflow_truthy _ _ workflow_value), workflow_value.
  clear workflow_value.
  destruct w; simpl;
    rewrite !(lookup_total_insert_ne merged "videoWorkflow" "model") by done;
    rewrite !lookup_total_insert_eq, Hmodel, Hm; by destruct m.
Qed.

(** An explicit workflow that the model confirms, or on which the model
    is silent, is the resolved workflow. *)
Lemma explicit_workflow_consistent_passes n :
  inferVideoWorkflowFromModel (opts !!! "model") = Ok n →
  n = VStr (workflow_name w) ∨ truthy n = false →
  resolveWorkflow cfg (mergeConfig cfg cli opts).1
  = Ok (<["videoWorkflow" := VStr (workflow_name w)]> (mergeConfig cfg cli opts).1).
Proof.
  intros Hm Hn.
  destruct (merge_keeps_explicit_workflow cfg cli opts workflow_flag)
    as (Hwf & Hv & Hmodel).
  set (merged := (mergeConfig cfg cli opts).1) in *.
  unfold resolveWorkflow, on in *. rewrite Hv, video_mode, Hwf.
  rewrite (normalizeVideoWorkflow_truthy _ _ workflow_value), workflow_value.
  clear workflow_value.
  destruct Hn as [->|Hn].
  - destruct w; simpl;
      rewrite !(lookup_total_insert_ne merged "videoWorkflow" "model") by done;
      by rewrite !lookup_total_insert_eq, Hmodel, Hm.
  - destruct w; simpl;
      rewrite !(lookup_total_insert_ne merged "videoWorkflow" "model") by done;
      rewrite !lookup_total_insert_eq, Hmodel, Hm; simpl;
      by rewrite Hn.
Qed.

End ExplicitWorkflow.

(** The check on two command lines: an explicit t2v against an
    image-to-video model, and the alias of i2v with that model, under a
    plugin default of i2v. *)
Lemma explicit_mismatch_rejected :
  resolve i2v_default_env
    ["--video"; "--workflow"; "t2v"; "-m"; "wan_v2.2-14b-fp8_i2v_lightx2v"; "p"]
  = Exit1 (WorkflowModelMismatch (VStr "t2v")
             (VStr "wan_v2.2-14b-fp8_i2v_lightx2v")).
Proof. vm_compute. reflexivity. Qed.

Lemma explicit_alias_accepted :
  resolvedWorkflow i2v_default_env
    ["--video"; "--workflow"; "Image-To-Video"; "-m";
     "wan_v2.2-14b-fp8_i2v_lightx2v"; "--ref"; "a.jpg"; "p"]
  = Ok (VStr "i2v").
Proof. vm_compute. reflexivity. Qed.

(** With no workflow value left by the command line or by the merge, the
    sources are tried in the order model, assets, plugin default, t2v,
    and the consistency check cannot fail. *)
Lemma inference_order cfg (opts : obj) m :
  on opts "video" = true → on opts "videoWorkflow" = false →
  inferVideoWorkflowFromModel (opts !!! "model") = Ok m →
  resolveWorkflow cfg opts
  = Ok (<["videoWorkflow" :=
            if truthy m then m
            else if truthy (inferVideoWorkflowFromAssets opts)
                 then inferVideoWorkflowFromAssets opts
            else if truthy (prop cfg "defaultVideoWorkflow")
                 then prop cfg "defaultVideoWorkflow"
            else VStr "t2v"]> opts).
Proof.
  intros Hvideo Hwf Hm. unfold resolveWorkflow. rewrite Hvideo, Hwf. simpl.
  rewrite Hm. simpl. rewrite Hwf. simpl. unfold js_or.
  destruct (truthy m) eqn:Htm; simpl; [by rewrite ?Htm|].
  destruct (truthy (inferVideoWorkflowFromAssets opts)) eqn:Hta; simpl;
    [by rewrite ?Hta|].
  by destruct (truthy (prop cfg "defaultVideoWorkflow")).
Qed.

(** Without [--workflow] and with a model that infers nothing, a plugin
    default is the resolved workflow, whatever assets the request
    carries: the assets are never asked. *)
Lemma plugin_default_wins_over_assets cfg (cli opts : obj) w n :
  truthy cfg = true → on opts "video" = true → on cli "workflow" = false →
  normalizeVideoWorkflow (prop cfg "defaultVideoWorkflow")
  = Ok (VStr (workflow_name w)) →
  inferVideoWorkflowFromModel (opts !!! "model") = Ok n → truthy n = false →
  resolveWorkflow cfg (mergeConfig cfg cli opts).1
  = Ok (<["videoWorkflow" := VStr (workflow_name w)]> (mergeConfig cfg cli opts).1).
Proof.
  intros Hcfg Hvideo Hcli Hdefault Hm Hn.
  pose proof (normalizeVideoWorkflow_truthy _ _ Hdefault) as Htruthy.
  pose proof (merge_installs_default_workflow cfg cli opts
                Hcfg Hvideo Hcli Htruthy) as Hwf.
  assert ((mergeConfig cfg cli opts).1 !!! "video" = opts !!! "video") as Hv
    by (apply merge_frame; not_listed).
  assert ((mergeConfig cfg cli opts).1 !!! "model" = opts !!! "model") as Hmodel
    by (apply merge_frame; not_listed).
  set (merged := (mergeConfig cfg cli opts).1) in *.
  unfold resolveWorkflow, on in *. rewrite Hv, Hvideo, Hwf, Htruthy, Hdefault.
  clear Hdefault.
  destruct w; simpl;
    rewrite !(lookup_total_insert_ne merged "videoWorkflow" "model") by done;
    rewrite !lookup_total_insert_eq, Hmodel, Hm; simpl;
    by rewrite Hn.
Qed.

(** C1, at the failing input.  With the assets of an animate-move request
    and neither [--workflow] nor [--model], the resolver infers
    animate-move when there is no plugin configuration; with a plugin
    configuration whose [defaultVideoWorkflow] is i2v it settles on i2v,
    and the run ends in the asset error of i2v. *)
Theorem plugin_default_preempts_inference :
  resolvedWorkflow bare_env animate_args = Ok (VStr "animate-move")
  ∧ resolvedWorkflow i2v_default_env animate_args = Ok (VStr "i2v")
  ∧ resolve i2v_default_env animate_args = Exit1 I2VRejectsAudioVideo.
Proof. repeat apply conj; vm_compute; reflexivity. Qed.

(** C6, at the failing input.  With a text-to-video model and no
    [--workflow], the workflow is t2v when there is no plugin
    configuration; with a plugin configuration whose
    [defaultVideoWorkflow] is i2v, the run ends in the error of the
    workflow/model consistency check. *)
Theorem plugin_default_trips_model_check :
  resolvedWorkflow bare_env t2v_model_args = Ok (VStr "t2v")
  ∧ resolve i2v_default_env t2v_model_args
    = Exit1 (WorkflowModelMismatch (VStr "i2v")
               (VStr "wan_v2.2-14b-fp8_t2v_lightx2v")).
Proof. apply conj; vm_compute; reflexivity. Qed.

(* ------------------------------------------------------------------ *)
(** ** The last-render record and its three readers *)
(* ------------------------------------------------------------------ *)

Lemma last_image_unparseable_record_throws env rest :
  lastRenderFile env = Unparseable →
  resolve env ("--last-image" :: rest) = Throw SyntaxError.
Proof.
  intros Hfile. unfold resolve. simpl. unfold parseArg. simpl.
  unfold readLastImage. by rewrite Hfile.
Qed.

Lemma last_image_missing_record_ignored env st :
  lastRenderFile env = NoFile → readLastImage env st = Ok st.
Proof. unfold readLastImage. by intros ->. Qed.

Lemma last_seed_unreadable_record_ignored env (opts : obj) :
  lastRenderFile env = NoFile ∨ lastRenderFile env = Unparseable →
  loadLastSeed env opts = opts.
Proof.
  intros H. apply loadLastSeed_keeps. right.
  unfold recorded_seed. by destruct H as [->| ->].
Qed.

Lemma show_last_exits_zero env rest :
  resolve env ("--last" :: rest) = Exit0 ShowLast.
Proof. reflexivity. Qed.

(** C9, at the failing input.  On an unparseable last-render file,
    [--last-image] lets the SyntaxError of [JSON.parse] escape, whereas
    [--last-seed] resolves to the seed it finds without a file and
    [--last] exits with code 0. *)
Theorem last_image_crashes_on_corrupt_record :
  resolve (with_last_render Unparseable bare_env) ["--last-image"; "p"]
  = Throw SyntaxError
  ∧ slot "seed" (resolve (with_last_render Unparseable bare_env) ["--last-seed"; "p"])
    = slot "seed" (resolve bare_env ["--last-seed"; "p"])
  ∧ resolve (with_last_render Unparseable bare_env) ["--last"; "p"]
    = Exit0 ShowLast.
Proof. repeat apply conj; vm_compute; reflexivity. Qed.

(* ------------------------------------------------------------------ *)
(** ** Argument parsing *)
(* ------------------------------------------------------------------ *)

Lemma parseArgs_step env arg rest st :
  parseArgs env (arg :: rest) st
  = parseArg env arg (next_arg rest) st ≫= λ '(st', consumed),
      parseArgs env (if consumed : bool then tail rest else rest) st'.
Proof.
  simpl. destruct (parseArg _ _ _ _) as [[st' []]| | |]; simpl; try done.
  by destruct rest.
Qed.

Lemma parseArgs_invariant env (P : state → Prop) :
  (∀ arg v st st' c, P st → parseArg env arg v st = Ok (st', c) → P st') →
  ∀ args st st', P st → parseArgs env args st = Ok st' → P st'.
Proof.
  intros Hstep args.
  induction args as [args IH] using (induction_ltof1 _ (@List.length string)).
  unfold ltof in IH. intros st st' HP Hparse.
  destruct args as [|arg rest]; [by injection Hparse as <-|].
  rewrite parseArgs_step in Hparse.
  apply bind_Ok in Hparse as ([st1 c] & Harg & Hparse).
  apply (IH (if c then tail rest else rest)) with (st := st1); [|by eapply Hstep|done].
  destruct c, rest; simpl; lia.
Qed.

(** The four things one turn of the loop can do to the state. *)
Lemma parseArg_shape env arg v st st' c :
  parseArg env arg v st = Ok (st', c) →
  st' = st
  ∨ (∃ k x, k ∈ ["lastSeed"; "json"; "quiet"; "_lastImagePath"]
            ∧ st' = set_option k x st)
  ∨ (on (options st) "prompt" = false ∧ startsWith arg "-" = false
     ∧ st' = set_option "prompt" (VStr arg) st)
  ∨ (∃ flag field x, In (flag, field) cli_fields
                     ∧ st' = set_from_cli field flag x st).
Proof.
  unfold parseArg. intros H.
  repeat match type of H with
         | (if ?c then _ else _) = _ => destruct c eqn:?
         end;
    try (injection H as <- <-);
    try (right; right; right; eexists _, _, _; split; [|reflexivity]; simpl; tauto);
    try (right; left; eexists _, _; split; [|reflexivity]; by repeat constructor).
  - apply bind_Ok in H as (st1 & Hread & H). injection H as <- <-.
    unfold readLastImage in Hread.
    destruct (lastRenderFile env) as [| |record]; try done; [left; congruence|].
    destruct (nullish record); [done|].
    destruct (truthy _); injection Hread as <-; [|by left].
    right; left. eexists _, _; split; [|reflexivity]. by repeat constructor.
  - discriminate H.
  - discriminate H.
  - right; right; left.
    match goal with H : _ && _ = true |- _ => apply andb_true_iff in H as [H1 H2] end.
    apply negb_true_iff in H1, H2. done.
  - by left.
Qed.

Lemma cli_fields_flag_of_field f1 k1 f2 k2 :
  In (f1, k1) cli_fields → In (f2, k2) cli_fields → k1 = k2 → f1 = f2.
Proof.
  simpl. intros H1 H2 Hk.
  repeat (destruct H1 as [H1|H1]; [injection H1 as <- <-|]); try done;
    repeat (destruct H2 as [H2|H2]; [injection H2 as <- <-|]); try done.
Qed.

Lemma cli_fields_not_plain flag field :
  In (flag, field) cli_fields →
  field ∉ ["lastSeed"; "json"; "quiet"; "_lastImagePath"; "prompt"].
Proof.
  simpl. intros H.
  repeat (destruct H as [H|H]; [injection H as <- <-; not_listed|]); done.
Qed.

Lemma plain_slot k :
  k ∈ ["lastSeed"; "json"; "quiet"; "_lastImagePath"] →
  k ∈ ["lastSeed"; "json"; "quiet"; "_lastImagePath"; "prompt"].
Proof.
  intros H. repeat (apply elem_of_cons in H as [->|H]; [by repeat constructor|]).
  by apply elem_of_nil in H.
Qed.

Lemma parseArg_keeps_defaults env arg v st st' c :
  keeps_defaults st → parseArg env arg v st = Ok (st', c) → keeps_defaults st'.
Proof.
  intros Hinv Harg flag field Hin Hoff.
  apply parseArg_shape in Harg
    as [->|[(k & x & Hk & ->)|[(_ & _ & ->)|(flag0 & field0 & x & Hin0 & ->)]]].
  - by apply (Hinv flag).
  - simpl in *. rewrite lookup_total_insert_ne; [by apply (Hinv flag)|].
    intros ->. by apply (cli_fields_not_plain _ _ Hin), plain_slot.
  - simpl in *. rewrite lookup_total_insert_ne; [by apply (Hinv flag)|].
    intros <-. apply (cli_fields_not_plain _ _ Hin). by repeat constructor.
  - simpl in *. unfold on in Hoff.
    destruct (decide (flag0 = flag)) as [->|Hne].
    + by rewrite lookup_total_insert_eq in Hoff.
    + rewrite lookup_total_insert_ne in Hoff by done.
      rewrite lookup_total_insert_ne; [exact (Hinv flag field Hin Hoff)|].
      intros ->. apply Hne.
      exact (cli_fields_flag_of_field _ _ _ _ Hin0 Hin eq_refl).
Qed.

Lemma parseArgs_keeps_defaults env args st :
  parseArgs env args initial_state = Ok st → keeps_defaults st.
Proof.
  apply (parseArgs_invariant env keeps_defaults (parseArg_keeps_defaults env)
           args initial_state st).
  by intros flag field _ _.
Qed.

(** X1.  A field whose flag the command line never gave still holds the
    value that the literal of [options] gives it: parsing changes a
    field only together with its flag in [cliSet]. *)
Theorem unset_flag_means_builtin_default env args st flag field :
  parseArgs env args initial_state = Ok st →
  In (flag, field) cli_fields → on (cliSet st) flag = false →
  options st !!! field = initial_options !!! field.
Proof. intros Hparse. by apply (parseArgs_keeps_defaults env args). Qed.

Lemma parseArg_keeps_prompt env arg v st st' c :
  on (options st) "prompt" = true → parseArg env arg v st = Ok (st', c) →
  options st' !!! "prompt" = options st !!! "prompt".
Proof.
  intros Hprompt Harg.
  apply parseArg_shape in Harg
    as [->|[(k & x & Hk & ->)|[(Hoff & _)|(flag0 & field0 & x & Hin0 & ->)]]].
  - done.
  - simpl. apply lookup_total_insert_ne. intros ->. revert Hk. not_listed.
  - congruence.
  - simpl. apply lookup_total_insert_ne. intros ->.
    apply (cli_fields_not_plain _ _ Hin0). by repeat constructor.
Qed.

Lemma parseArgs_keeps_prompt env args st st' :
  on (options st) "prompt" = true → parseArgs env args st = Ok st' →
  options st' !!! "prompt" = options st !!! "prompt".
Proof.
  intros Hprompt Hparse.
  apply (parseArgs_invariant env
           (λ s, options s !!! "prompt" = options st !!! "prompt")) in Hparse;
    [done| |done].
  intros arg v s s' c Hs Harg. rewrite <- Hs.
  apply (parseArg_keeps_prompt env arg v s s' c); [|done].
  unfold on. by rewrite Hs.
Qed.

Lemma not_dash_not_flag arg names :
  startsWith arg "-" = false → Forall (λ n, startsWith n "-" = true) names →
  is_one_of arg names = false.
Proof.
  intros Harg Hnames. unfold is_one_of.
  induction Hnames as [|n names Hn _ IH]; [done|]. simpl. rewrite IH, orb_false_r.
  apply String.eqb_neq. intros ->. congruence.
Qed.

(** X2.  The first argument that does not start with a dash is the
    prompt, and no later argument replaces it. *)
Theorem first_positional_is_prompt env p rest st st' :
  startsWith p "-" = false → p ≠ EmptyString →
  on (options st) "prompt" = false →
  parseArgs env (p :: rest) st = Ok st' →
  options st' !!! "prompt" = VStr p.
Proof.
  intros Hdash Hne Hprompt Hparse.
  rewrite parseArgs_step in Hparse.
  assert (parseArg env p (next_arg rest) st
          = Ok (set_option "prompt" (VStr p) st, false)) as Harg.
  { unfold parseArg.
    rewrite !(not_dash_not_flag p) by (done || by repeat constructor).
    by rewrite Hdash, Hprompt. }
  rewrite Harg in Hparse. simpl in Hparse.
  apply parseArgs_keeps_prompt in Hparse; simpl in *.
  - by rewrite Hparse, lookup_total_insert_eq.
  - unfold on. rewrite lookup_total_insert_eq. by destruct p.
Qed.

Lemma not_known_not_flag arg names :
  arg ∉ known_flags → names ⊆ known_flags → is_one_of arg names = false.
Proof.
  intros Harg Hsub. unfold is_one_of.
  induction names as [|n names IH]; [done|]. simpl.
  rewrite IH by (intros x Hx; apply Hsub; by right). rewrite orb_false_r.
  apply String.eqb_neq. intros ->. apply Harg, Hsub. by left.
Qed.

Ltac known_names :=
  let x := fresh in
  let H := fresh in
  intros x H; repeat (apply elem_of_cons in H as [->|H]; [by repeat constructor|]);
  by apply elem_of_nil in H.

(** X3.  An argument that is none of the known flags and starts with a
    dash, or comes when the prompt is set, is skipped without an error:
    the run is the run without it. *)
Theorem unknown_option_is_ignored env arg rest st :
  arg ∉ known_flags →
  startsWith arg "-" = true ∨ on (options st) "prompt" = true →
  parseArgs env (arg :: rest) st = parseArgs env rest st.
Proof.
  intros Hunknown Hskip. rewrite parseArgs_step.
  assert (parseArg env arg (next_arg rest) st = Ok (st, false)) as ->; [|done].
  unfold parseArg.
  rewrite !(not_known_not_flag arg) by (done || known_names).
  by destruct Hskip as [-> | ->]; rewrite ?andb_false_r.
Qed.

Lemma is_one_of_single arg name : is_one_of arg [name] = true → arg = name.
Proof.
  unfold is_one_of. simpl. rewrite orb_false_r. apply String.eqb_eq.
Qed.

Lemma readLastImage_readable env st :
  readable_record (lastRenderFile env) → ∃ st', readLastImage env st = Ok st'.
Proof.
  unfold readLastImage, readable_record.
  destruct (lastRenderFile env) as [| |record]; [eauto|done|].
  intros ->. destruct (truthy _); eauto.
Qed.

Lemma parseArg_succeeds env arg v st :
  arg ≠ "--help" → arg ≠ "--last" →
  arg ≠ "--last-image" ∨ readable_record (lastRenderFile env) →
  ∃ st' c, parseArg env arg v st = Ok (st', c).
Proof.
  intros Hhelp Hlast Himage. unfold parseArg.
  repeat match goal with
         | |- context [if ?c then _ else _] => destruct c eqn:?
         end; eauto;
    try match goal with H : is_one_of arg [_] = true |- _ =>
          apply is_one_of_single in H; done end.
  destruct Himage as [Himage|Hreadable].
  - match goal with H : is_one_of arg [_] = true |- _ =>
      apply is_one_of_single in H; done end.
  - destruct (readLastImage_readable env st Hreadable) as [st' ->]. simpl. eauto.
Qed.

(** X4.  Parsing runs to the end of every command line that has neither
    [--help] nor [--last], and on which [--last-image] finds no
    last-render file or one that holds a record: a flag without its
    value, a value that is no number and an unknown flag do not stop
    it. *)
Theorem parsing_stops_only_on_three_flags env args st :
  "--help" ∉ args → "--last" ∉ args →
  "--last-image" ∉ args ∨ readable_record (lastRenderFile env) →
  ∃ st', parseArgs env args st = Ok st'.
Proof.
  revert st.
  induction args as [args IH] using (induction_ltof1 _ (@List.length string)).
  unfold ltof in IH. intros st Hhelp Hlast Himage.
  destruct args as [|arg rest]; [by eexists|].
  rewrite parseArgs_step.
  destruct (parseArg_succeeds env arg (next_arg rest) st) as (st1 & c & ->).
  - intros ->. apply Hhelp. by left.
  - intros ->. apply Hlast. by left.
  - destruct Himage as [Himage|?]; [left|by right]. intros ->. apply Himage. by left.
  - simpl.
    assert (∀ a, a ∈ (if c then tail rest else rest) → a ∈ arg :: rest) as Hsub.
    { intros a Ha. right. destruct c, rest as [|? ?]; simpl in *; try done. by right. }
    apply IH.
    + destruct c, rest; simpl; lia.
    + intros H. by apply Hhelp, Hsub.
    + intros H. by apply Hlast, Hsub.
    + destruct Himage as [Himage|?]; [left|by right]. intros H. by apply Himage, Hsub.
Qed.

(* ------------------------------------------------------------------ *)
(** ** The stages of a run that succeeds *)
(* ------------------------------------------------------------------ *)

Lemma reject_if_Ok c m : reject_if c m = Ok tt → c = false.
Proof. by destruct c. Qed.

Lemma resolveOptions_stages env st (r : obj) :
  resolveOptions env st = Ok r →
  let cfg := openclawConfig env in
  let merged := mergeConfig cfg (cliSet st) (options st) in
  ∃ o1 o2 o3 : obj,
    validateTokenType merged.1 = Ok o1
    ∧ validateSeedStrategy o1 = Ok o2
    ∧ validateStepsGuidance (cliSet st) o2 = Ok tt
    ∧ resolveWorkflow cfg o2 = Ok o3
    ∧ let o4 := applyDefaults cfg (cliSet st) merged.2 (resolveLastImage o3) in
      requirePrompt o4 = Ok tt
      ∧ rejectVideoOnly o4 = Ok tt
      ∧ validateAssets o4 = Ok tt
      ∧ validateContextImages env o4 = Ok tt
      ∧ resolveSeed env o4 = Ok r.
Proof.
  unfold resolveOptions, resolveUpToWorkflow. intros H. simpl.
  destruct (mergeConfig _ _ _) as [o0 fromConfig]. simpl.
  apply bind_Ok in H as ([o3 fc] & Hup & H).
  apply bind_Ok in Hup as (o1 & H1 & Hup). apply bind_Ok in Hup as (o2 & H2 & Hup).
  apply bind_Ok in Hup as ([] & Hsteps & Hup).
  apply bind_Ok in Hup as (o3' & H3 & Hup).
  injection Hup as -> ->.
  apply bind_Ok in H as ([] & Hprompt & H). apply bind_Ok in H as ([] & Hvideo & H).
  apply bind_Ok in H as ([] & Hassets & H). apply bind_Ok in H as ([] & Hcontext & H).
  by exists o1, o2, o3.
Qed.

Lemma loadLastSeed_frame env (opts : obj) k :
  k ≠ "seed" → loadLastSeed env opts !!! k = opts !!! k.
Proof.
  intros Hk. unfold loadLastSeed. destruct (on opts "lastSeed"); [|done].
  destruct (lastRenderFile env) as [| |record]; try done.
  destruct (nullish record); [done|]. by rewrite assign_if_other.
Qed.

Lemma deriveSeed_frame env (opts r : obj) k :
  deriveSeed env opts = Ok r → k ∉ ["seed"; "seedStrategy"] → r !!! k = opts !!! k.
Proof.
  intros H Hk. repeat (apply not_elem_of_cons in Hk as [? Hk]).
  destruct (nullish (opts !!! "seed")) eqn:Hseed.
  - apply deriveSeed_derives in H as (strategy & seed & -> & _); [|done].
    by rewrite !lookup_total_insert_ne.
  - rewrite deriveSeed_skips in H by done. by injection H as <-.
Qed.

Lemma resolveSeed_frame env (opts r : obj) k :
  resolveSeed env opts = Ok r → k ∉ ["seed"; "seedStrategy"] → r !!! k = opts !!! k.
Proof.
  unfold resolveSeed. intros H Hk. rewrite (deriveSeed_frame _ _ _ _ H Hk).
  apply loadLastSeed_frame. apply not_elem_of_cons in Hk as [? _]. done.
Qed.

Lemma loadLastSeed_seed env (opts : obj) :
  nullish (opts !!! "seed") = false → nullish (loadLastSeed env opts !!! "seed") = false.
Proof.
  intros Hseed. unfold loadLastSeed. destruct (on opts "lastSeed"); [|done].
  destruct (lastRenderFile env) as [| |record]; try done.
  destruct (nullish record); [done|]. unfold assign_if.
  destruct (truthy (prop record "seed")) eqn:Hrec; [|done].
  rewrite lookup_total_insert_eq. by apply truthy_not_nullish.
Qed.

Lemma is_uint32_not_nullish v : is_uint32 v = true → nullish v = false.
Proof. by destruct v. Qed.

Lemma resolveSeed_seed env (opts r : obj) :
  resolveSeed env opts = Ok r → nullish (r !!! "seed") = false.
Proof.
  unfold resolveSeed. intros H.
  destruct (nullish (loadLastSeed env opts !!! "seed")) eqn:Hseed.
  - apply deriveSeed_derives in H as (strategy & seed & -> & Hrange & _); [|done].
    rewrite lookup_total_insert_eq. by apply is_uint32_not_nullish.
  - rewrite deriveSeed_skips in H by done. by injection H as <-.
Qed.

Lemma js_or_literal a s : s ≠ EmptyString → truthy (js_or a (VStr s)) = true.
Proof. intros Hs. unfold js_or. destruct (truthy a) eqn:Ha; [done|]. by destruct s. Qed.

Lemma applyDefaults_model cfg (cli : obj) fromConfig (opts : obj) :
  on (applyDefaults cfg cli fromConfig opts) "model" = true.
Proof.
  unfold applyDefaults, on.
  split_conditionals; rewrite ?assign_if_other by done;
    rewrite lookup_total_insert_eq; by apply js_or_literal.
Qed.

Lemma resolveOptions_complete env st (r : obj) :
  resolveOptions env st = Ok r →
  on r "prompt" = true ∧ on r "model" = true ∧ nullish (r !!! "seed") = false.
Proof.
  intros H. apply resolveOptions_stages in H as (o1 & o2 & o3 & _ & _ & _ & _ & H).
  simpl in H. destruct H as (Hprompt & _ & _ & _ & Hseed).
  unfold on. rewrite !(resolveSeed_frame _ _ _ _ Hseed) by not_listed.
  split; [|split].
  - apply reject_if_Ok in Hprompt. by apply negb_false_iff in Hprompt.
  - apply applyDefaults_model.
  - by eapply resolveSeed_seed.
Qed.

Lemma validateTokenType_canonical (opts r : obj) :
  validateTokenType opts = Ok r →
  r !!! "tokenType" = VStr "spark" ∨ r !!! "tokenType" = VStr "sogni"
  ∨ on r "tokenType" = false.
Proof.
  unfold validateTokenType. destruct (on opts "tokenType") eqn:Hon;
    [|intros [= <-]; auto].
  intros H. apply bind_Ok in H as (token & _ & H).
  apply bind_Ok in H as ([] & Hcheck & H). injection H as <-.
  rewrite lookup_total_insert_eq. apply reject_if_Ok in Hcheck.
  destruct (token =? "spark") eqn:Hspark.
  - apply String.eqb_eq in Hspark as ->. auto.
  - destruct (token =? "sogni") eqn:Hsogni; [|done].
    apply String.eqb_eq in Hsogni as ->. auto.
Qed.

Lemma validateSeedStrategy_canonical (opts r : obj) :
  validateSeedStrategy opts = Ok r →
  r !!! "seedStrategy" = VStr "random" ∨ r !!! "seedStrategy" = VStr "prompt-hash"
  ∨ on r "seedStrategy" = false.
Proof.
  unfold validateSeedStrategy. destruct (on opts "seedStrategy") eqn:Hon;
    [|intros [= <-]; auto].
  intros H. apply bind_Ok in H as (n & Hn & H).
  apply bind_Ok in H as ([] & Hcheck & H). injection H as <-.
  rewrite lookup_total_insert_eq. apply reject_if_Ok in Hcheck.
  apply normalizeSeedStrategy_inv in Hn as [->|[->| ->]]; auto. done.
Qed.

Lemma resolveSeed_strategy env (opts r : obj) :
  resolveSeed env opts = Ok r →
  r !!! "seedStrategy" = opts !!! "seedStrategy"
  ∨ r !!! "seedStrategy" = VStr "random" ∨ r !!! "seedStrategy" = VStr "prompt-hash".
Proof.
  unfold resolveSeed. intros H.
  destruct (nullish (loadLastSeed env opts !!! "seed")) eqn:Hseed.
  - apply deriveSeed_derives in H as (strategy & seed & -> & _ & Hs); [|done].
    rewrite lookup_total_insert_ne, lookup_total_insert_eq by done.
    destruct Hs as [[-> _]|[-> _]]; auto.
  - rewrite deriveSeed_skips in H by done. injection H as <-. left.
    by apply loadLastSeed_frame.
Qed.

Lemma resolveOptions_canonical env st (r : obj) :
  resolveOptions env st = Ok r →
  (r !!! "tokenType" = VStr "spark" ∨ r !!! "tokenType" = VStr "sogni"
   ∨ on r "tokenType" = false)
  ∧ (r !!! "seedStrategy" = VStr "random" ∨ r !!! "seedStrategy" = VStr "prompt-hash"
     ∨ on r "seedStrategy" = false).
Proof.
  intros H.
  apply resolveOptions_stages in H as (o1 & o2 & o3 & H1 & H2 & _ & H3 & H).
  simpl in H. destruct H as (_ & _ & _ & _ & Hseed). split.
  - unfold on. rewrite (resolveSeed_frame _ _ _ _ Hseed) by not_listed.
    rewrite applyDefaults_frame, resolveLastImage_frame by not_listed.
    rewrite (resolveWorkflow_frame _ _ _ _ H3) by done.
    rewrite (validateSeedStrategy_frame _ _ _ H2) by done.
    by apply validateTokenType_canonical in H1.
  - destruct (resolveSeed_strategy _ _ _ Hseed) as [Hkept|[?|?]]; auto.
    unfold on. rewrite Hkept.
    rewrite applyDefaults_frame, resolveLastImage_frame by not_listed.
    rewrite (resolveWorkflow_frame _ _ _ _ H3) by done.
    by apply validateSeedStrategy_canonical in H2.
Qed.

(** ** The resolved workflow *)

Lemma inferVideoWorkflowFromModel_inv v n :
  inferVideoWorkflowFromModel v = Ok n →
  n = VNull ∨ ∃ w, n = VStr (workflow_name w).
Proof.
  unfold inferVideoWorkflowFromModel. destruct (truthy v); simpl; [|intros [= <-]; auto].
  destruct (lowered v) as [s| | |]; simpl; try done.
  split_conditionals; intros [= <-]; auto; right;
    [by exists AnimateMove|by exists AnimateReplace|by exists T2V
    |by exists I2V|by exists S2V].
Qed.

Lemma inferVideoWorkflowFromAssets_inv (opts : obj) :
  inferVideoWorkflowFromAssets opts = VNull
  ∨ ∃ w, inferVideoWorkflowFromAssets opts = VStr (workflow_name w).
Proof.
  unfold inferVideoWorkflowFromAssets.
  split_conditionals; auto; right;
    [by exists AnimateMove|by exists S2V|by exists I2V].
Qed.

Lemma workflow_name_truthy w : truthy (VStr (workflow_name w)) = true.
Proof. by destruct w. Qed.

Lemma resolveWorkflow_named cfg (opts r : obj) :
  resolveWorkflow cfg opts = Ok r → on opts "video" = true →
  on opts "videoWorkflow" = true ∨ truthy (prop cfg "defaultVideoWorkflow") = false →
  ∃ w, r !!! "videoWorkflow" = VStr (workflow_name w).
Proof.
  unfold resolveWorkflow. intros H Hvideo Hsource. rewrite Hvideo in H.
  apply bind_Ok in H as (o1 & Ho1 & H).
  apply bind_Ok in H as (m & Hm & H). apply bind_Ok in H as ([] & _ & H).
  destruct (on opts "videoWorkflow") eqn:Hon.
  - apply bind_Ok in Ho1 as (n & Hn & Ho1). apply bind_Ok in Ho1 as ([] & Hcheck & Ho1).
    injection Ho1 as <-. apply reject_if_Ok, negb_false_iff in Hcheck.
    unfold on in H. rewrite lookup_total_insert_eq, Hcheck in H.
    injection H as <-. rewrite lookup_total_insert_eq.
    apply normalizeVideoWorkflow_inv in Hn as [->|Hn]; done.
  - destruct Hsource as [|Hdefault]; [done|]. injection Ho1 as <-.
    rewrite Hon in H. injection H as <-. rewrite lookup_total_insert_eq.
    unfold js_or.
    apply inferVideoWorkflowFromModel_inv in Hm as [->|[w ->]];
      [|exists w; by destruct w].
    simpl.
    destruct (inferVideoWorkflowFromAssets_inv opts) as [->|[w ->]];
      [|exists w; by destruct w].
    simpl. rewrite Hdefault. by exists T2V.
Qed.

Lemma prop_falsy cfg k : truthy cfg = false → prop cfg k = VUndef.
Proof. by destruct cfg. Qed.

(** The workflow slot after the merge: the plugin default when the merge
    installs it, else what the options held. *)
Lemma merge_workflow cfg (cli opts : obj) :
  (mergeConfig cfg cli opts).1 !!! "videoWorkflow"
  = if truthy cfg && on opts "video" && negb (on cli "workflow")
       && truthy (prop cfg "defaultVideoWorkflow")
    then prop cfg "defaultVideoWorkflow"
    else opts !!! "videoWorkflow".
Proof.
  unfold mergeConfig. destruct (truthy cfg); [|done]. simpl.
  rewrite !on_assign_if_other by done.
  destruct (on opts "video"); simpl; [|split_conditionals; simpl; by through_assignments].
  destruct (on cli "workflow"), (truthy (prop cfg "defaultVideoWorkflow")); simpl;
    split_conditionals; simpl; through_assignments;
    rewrite ?lookup_total_insert_eq; by through_assignments.
Qed.

(** X7.  In video mode the resolved workflow is one of the five workflow
    names, unless [--workflow] was given an empty or a missing value. *)
Theorem resolved_workflow_is_named env st (r : obj) :
  resolveOptions env st = Ok r → on r "video" = true →
  on (options st) "videoWorkflow" = true ∨ on (cliSet st) "workflow" = false →
  ∃ w, r !!! "videoWorkflow" = VStr (workflow_name w).
Proof.
  intros H Hvideo Hsource.
  apply resolveOptions_stages in H as (o1 & o2 & o3 & H1 & H2 & _ & H3 & H).
  simpl in H. destruct H as (_ & _ & _ & _ & Hseed).
  pose proof (merge_workflow (openclawConfig env) (cliSet st) (options st)) as Hwf.
  pose proof (merge_frame (openclawConfig env) (cliSet st) (options st) "video") as Hv.
  set (merged := mergeConfig _ _ _) in *.
  unfold on in Hvideo.
  rewrite !(resolveSeed_frame _ _ _ _ Hseed) in * by not_listed.
  rewrite applyDefaults_frame, resolveLastImage_frame in * by not_listed.
  rewrite (resolveWorkflow_frame _ _ _ _ H3) in Hvideo by done.
  apply (resolveWorkflow_named _ _ _ H3); [done|].
  unfold on.
  rewrite !(validateSeedStrategy_frame _ _ _ H2) in * by done.
  rewrite !(validateTokenType_frame _ _ _ H1) in * by done.
  rewrite Hwf. rewrite Hv in Hvideo by not_listed. fold (on (options st) "video") in *.
  rewrite Hvideo.
  destruct (truthy (openclawConfig env)) eqn:Hcfg; simpl.
  - destruct (on (cliSet st) "workflow") eqn:Hcli; simpl.
    + destruct Hsource as [?|?]; [by left|done].
    + destruct (truthy (prop _ "defaultVideoWorkflow")) eqn:Hdefault; auto.
  - right. by rewrite prop_falsy.
Qed.

(** ** The timeout *)

Lemma merge_timeout cfg (cli opts : obj) :
  mergeConfig cfg cli opts
  = if truthy cfg && negb (on cli "timeout")
       && isFinite (prop cfg (timeout_key opts))
    then (<["timeout" := seconds_to_ms (prop cfg (timeout_key opts))]>
            (mergeConfig cfg cli opts).1, true)
    else ((mergeConfig cfg cli opts).1, false).
Proof.
  unfold mergeConfig, timeout_key. destruct (truthy cfg); [|done]. simpl.
  rewrite !on_assign_if_other by done.
  destruct (on opts "video"); simpl;
    destruct (negb (on cli "timeout") && isFinite _) eqn:Hc; simpl; try done.
  all: by rewrite insert_insert_eq.
Qed.

Lemma merge_timeout_slot cfg (cli opts : obj) :
  (mergeConfig cfg cli opts).1 !!! "timeout"
  = if (mergeConfig cfg cli opts).2
    then seconds_to_ms (prop cfg (timeout_key opts))
    else opts !!! "timeout".
Proof.
  rewrite (merge_timeout cfg cli opts) at 1 2.
  destruct (truthy cfg && negb (on cli "timeout") && isFinite _) eqn:Hc; simpl.
  - by rewrite lookup_total_insert_eq.
  - unfold mergeConfig, timeout_key in *. destruct (truthy cfg); [|done]. simpl in *.
    rewrite !on_assign_if_other in * by done.
    destruct (on opts "video"); simpl in *; rewrite Hc; simpl; by through_assignments.
Qed.

Lemma merge_flag cfg (cli opts : obj) :
  (mergeConfig cfg cli opts).2
  = truthy cfg && negb (on cli "timeout") && isFinite (prop cfg (timeout_key opts)).
Proof.
  rewrite (merge_timeout cfg cli opts) at 1. by destruct (_ && _ && _).
Qed.

Lemma applyDefaults_timeout cfg (cli : obj) fromConfig (opts : obj) :
  applyDefaults cfg cli fromConfig opts !!! "timeout"
  = if negb (on cli "timeout") && negb fromConfig && is_int (opts !!! "timeout") 30000
       && (on opts "video" || nonempty (opts !!! "contextImages"))
    then VNum (Int (if on opts "video" then 300000 else 60000))
    else opts !!! "timeout".
Proof.
  unfold applyDefaults.
  destruct (on opts "video"); simpl.
  - rewrite andb_true_r. unfold assign_if. destruct (_ && _ && _); simpl.
    + by rewrite lookup_total_insert_eq.
    + by rewrite lookup_total_insert_ne.
  - destruct (nonempty _); simpl.
    + rewrite andb_true_r. unfold assign_if. destruct (_ && _ && _); simpl.
      * by rewrite lookup_total_insert_eq.
      * by rewrite lookup_total_insert_ne.
    + rewrite andb_false_r. by rewrite lookup_total_insert_ne.
Qed.

(** The slots that reach the defaults unchanged from the merge. *)
Lemma stages_frame env st (r : obj) k :
  resolveOptions env st = Ok r →
  k ∉ ["tokenType"; "seedStrategy"; "videoWorkflow"; "refImage"; "contextImages";
       "_lastImagePath"; "model"; "timeout"; "seed"] →
  r !!! k = (mergeConfig (openclawConfig env) (cliSet st) (options st)).1 !!! k.
Proof.
  intros H Hk.
  apply resolveOptions_stages in H as (o1 & o2 & o3 & H1 & H2 & _ & H3 & H).
  simpl in H. destruct H as (_ & _ & _ & _ & Hseed).
  apply not_elem_of_cons in Hk as [Ht Hk]. apply not_elem_of_cons in Hk as [Hs Hk].
  apply not_elem_of_cons in Hk as [Hw Hk].
  apply not_elem_of_cons in Hk as [Hi Hk]. apply not_elem_of_cons in Hk as [Hc Hk].
  apply not_elem_of_cons in Hk as [Hl Hk]. apply not_elem_of_cons in Hk as [Hm Hk].
  apply not_elem_of_cons in Hk as [Hto Hk]. apply not_elem_of_cons in Hk as [Hsd _].
  assert (∀ names : list string, Forall (λ n, k ≠ n) names → k ∉ names) as Hnot.
  { intros names Hall Hin. by eapply Forall_forall in Hall. }
  rewrite (resolveSeed_frame _ _ _ _ Hseed) by (apply Hnot; by repeat constructor).
  rewrite applyDefaults_frame by (apply Hnot; by repeat constructor).
  rewrite resolveLastImage_frame by (apply Hnot; by repeat constructor).
  rewrite (resolveWorkflow_frame _ _ _ _ H3) by done.
  rewrite (validateSeedStrategy_frame _ _ _ H2) by done.
  by rewrite (validateTokenType_frame _ _ _ H1) by done.
Qed.

(** The timeout of a resolved request, from the timeout after the merge. *)
Lemma resolved_timeout env st (r : obj) :
  resolveOptions env st = Ok r →
  let merged := mergeConfig (openclawConfig env) (cliSet st) (options st) in
  r !!! "timeout"
  = if negb (on (cliSet st) "timeout") && negb merged.2
       && is_int (merged.1 !!! "timeout") 30000
       && (on r "video" || nonempty (r !!! "contextImages"))
    then VNum (Int (if on r "video" then 300000 else 60000))
    else merged.1 !!! "timeout".
Proof.
  intros H. simpl.
  apply resolveOptions_stages in H as (o1 & o2 & o3 & H1 & H2 & _ & H3 & H).
  simpl in H. destruct H as (_ & _ & _ & _ & Hseed).
  unfold on at 2 3.
  rewrite !(resolveSeed_frame _ _ _ _ Hseed) by not_listed.
  rewrite applyDefaults_timeout.
  rewrite !(applyDefaults_frame _ _ _ _ "video") by not_listed.
  rewrite !(applyDefaults_frame _ _ _ _ "contextImages") by not_listed.
  rewrite !(resolveLastImage_frame _ "timeout") by not_listed.
  rewrite (resolveWorkflow_frame _ _ _ "timeout" H3) by done.
  rewrite (validateSeedStrategy_frame _ _ "timeout" H2) by done.
  by rewrite (validateTokenType_frame _ _ "timeout" H1) by done.
Qed.

(** X9.  A timeout given on the command line, or else one configured in
    the plugin for the kind of request, is the timeout of the resolved
    request: the larger built-in timeouts of video and of image editing
    never replace it, not even when it equals the 30 seconds that the
    options start with. *)
Theorem chosen_timeout_is_kept env st (r : obj) :
  resolveOptions env st = Ok r →
  on (cliSet st) "timeout" = true
  ∨ (truthy (openclawConfig env) = true
     ∧ isFinite (prop (openclawConfig env) (timeout_key (options st))) = true) →
  r !!! "timeout"
  = if on (cliSet st) "timeout" then options st !!! "timeout"
    else seconds_to_ms (prop (openclawConfig env) (timeout_key (options st))).
Proof.
  intros H Hchosen. rewrite (resolved_timeout _ _ _ H). simpl.
  rewrite merge_timeout_slot, merge_flag.
  destruct (on (cliSet st) "timeout"); simpl; [by rewrite !andb_false_r|].
  destruct Hchosen as [?|[-> ->]]; done.
Qed.

(** X10.  Without a plugin configuration and without [--timeout], the
    timeout of a resolved request is the built-in one of its kind: 300
    seconds for a video, 60 seconds for an image edit, 30 seconds for an
    image. *)
Theorem builtin_timeout_by_request_kind env args st (r : obj) :
  parseArgs env args initial_state = Ok st → resolveOptions env st = Ok r →
  truthy (openclawConfig env) = false → on (cliSet st) "timeout" = false →
  r !!! "timeout"
  = VNum (Int (if on r "video" then 300000
               else if nonempty (r !!! "contextImages") then 60000 else 30000)).
Proof.
  intros Hparse H Hcfg Hcli. rewrite (resolved_timeout _ _ _ H). simpl.
  rewrite merge_timeout_slot, merge_flag, Hcfg, Hcli. simpl.
  rewrite (parseArgs_keeps_defaults env args st Hparse "timeout" "timeout");
    [|simpl; auto 10|done].
  change (initial_options !!! "timeout") with (VNum (Int 30000)). simpl.
  destruct (on r "video"); [done|]. by destruct (nonempty _).
Qed.

(** X5.  A run that resolves its options has everything a request needs:
    a prompt, a model and a seed. *)
Theorem resolved_request_is_complete env st (r : obj) :
  resolveOptions env st = Ok r →
  on r "prompt" = true ∧ on r "model" = true ∧ nullish (r !!! "seed") = false.
Proof. apply resolveOptions_complete. Qed.

(** X6.  The token type of a resolved request is [spark], [sogni] or
    absent, and its seed strategy is [random], [prompt-hash] or absent,
    whatever spelling the command line or the plugin configuration
    used. *)
Theorem resolved_names_are_canonical env st (r : obj) :
  resolveOptions env st = Ok r →
  (r !!! "tokenType" = VStr "spark" ∨ r !!! "tokenType" = VStr "sogni"
   ∨ on r "tokenType" = false)
  ∧ (r !!! "seedStrategy" = VStr "random" ∨ r !!! "seedStrategy" = VStr "prompt-hash"
     ∨ on r "seedStrategy" = false).
Proof. apply resolveOptions_canonical. Qed.

(* ------------------------------------------------------------------ *)
(** ** Where an error message comes from *)
(* ------------------------------------------------------------------ *)

Lemma bind_Exit1 {A B} (m : result A) (f : A → result B) (e : message) :
  m ≫= f = Exit1 e → m = Exit1 e ∨ ∃ a, m = Ok a ∧ f a = Exit1 e.
Proof.
  destruct m as [a| |m|]; simpl; try done; intros H;
    [right; eauto|injection H as ->; by left].
Qed.

Lemma reject_if_Exit1 c m e : reject_if c m = Exit1 e → c = true ∧ e = m.
Proof. destruct c; [|done]. by intros [= <-]. Qed.

Lemma lowered_Exit1 v e : lowered v ≠ Exit1 e.
Proof. by destruct v. Qed.

Lemma normalizeVideoWorkflow_Exit1 v e : normalizeVideoWorkflow v ≠ Exit1 e.
Proof.
  unfold normalizeVideoWorkflow. destruct (negb (truthy v)); [done|].
  destruct (lowered v) as [s| | |] eqn:Hl; simpl; try done.
  - by split_conditionals.
  - by apply lowered_Exit1 in Hl.
Qed.

Lemma inferVideoWorkflowFromModel_Exit1 v e : inferVideoWorkflowFromModel v ≠ Exit1 e.
Proof.
  unfold inferVideoWorkflowFromModel. destruct (negb (truthy v)); [done|].
  destruct (lowered v) as [s| | |] eqn:Hl; simpl; try done.
  - by split_conditionals.
  - by apply lowered_Exit1 in Hl.
Qed.

Lemma normalizeSeedStrategy_Exit1 v e : normalizeSeedStrategy v ≠ Exit1 e.
Proof.
  unfold normalizeSeedStrategy. destruct (negb (truthy v)); [done|].
  destruct (lowered v) as [s| | |] eqn:Hl; simpl; try done.
  - by split_conditionals.
  - by apply lowered_Exit1 in Hl.
Qed.

Lemma validateTokenType_Exit1 (opts : obj) e :
  validateTokenType opts = Exit1 e → e = TokenTypeInvalid.
Proof.
  unfold validateTokenType. destruct (on opts "tokenType"); [|done]. intros H.
  apply bind_Exit1 in H as [H|(token & _ & H)]; [by apply lowered_Exit1 in H|].
  apply bind_Exit1 in H as [H|(? & _ & H)]; [|done].
  by apply reject_if_Exit1 in H as [_ ->].
Qed.

Lemma validateSeedStrategy_Exit1 (opts : obj) e :
  validateSeedStrategy opts = Exit1 e → e = SeedStrategyInvalid.
Proof.
  unfold validateSeedStrategy. destruct (on opts "seedStrategy"); [|done]. intros H.
  apply bind_Exit1 in H as [H|(n & _ & H)]; [by apply normalizeSeedStrategy_Exit1 in H|].
  apply bind_Exit1 in H as [H|(? & _ & H)]; [|done].
  by apply reject_if_Exit1 in H as [_ ->].
Qed.

Lemma validateStepsGuidance_Exit1 (cli opts : obj) e :
  validateStepsGuidance cli opts = Exit1 e → e = StepsNotNumber ∨ e = GuidanceNotNumber.
Proof.
  unfold validateStepsGuidance. intros H.
  apply bind_Exit1 in H as [H|(? & _ & H)]; apply reject_if_Exit1 in H as [_ ->]; auto.
Qed.

Lemma resolveWorkflow_Exit1 cfg (opts : obj) e :
  resolveWorkflow cfg opts = Exit1 e →
  (∃ w, e = UnknownWorkflow w) ∨ (∃ w m, e = WorkflowModelMismatch w m).
Proof.
  unfold resolveWorkflow. destruct (on opts "video"); [|done]. intros H.
  apply bind_Exit1 in H as [H|(o1 & _ & H)].
  - destruct (on opts "videoWorkflow"); [|done].
    apply bind_Exit1 in H as [H|(n & _ & H)];
      [by apply normalizeVideoWorkflow_Exit1 in H|].
    apply bind_Exit1 in H as [H|(? & _ & H)]; [|done].
    apply reject_if_Exit1 in H as [_ ->]. eauto.
  - apply bind_Exit1 in H as [H|(m & _ & H)];
      [by apply inferVideoWorkflowFromModel_Exit1 in H|].
    apply bind_Exit1 in H as [H|(? & _ & H)].
    + apply reject_if_Exit1 in H as [_ ->]. eauto.
    + by destruct (negb _).
Qed.

Lemma validateAssets_Exit1 (opts : obj) e :
  validateAssets opts = Exit1 e → e ≠ VideoOnlyOptions ∧ e ≠ NoPrompt.
Proof.
  unfold validateAssets. intros H.
  repeat match type of H with
         | (if ?c then _ else _) = _ => destruct c
         | _ ≫= _ = _ => apply bind_Exit1 in H as [H|(? & _ & H)]
         | reject_if _ _ = _ => apply reject_if_Exit1 in H as [_ ->]
         end; done.
Qed.

Lemma validateContextImages_Exit1 env (opts : obj) e :
  validateContextImages env opts = Exit1 e → e ≠ VideoOnlyOptions ∧ e ≠ NoPrompt.
Proof.
  unfold validateContextImages. intros H.
  repeat match type of H with
         | (if ?c then _ else _) = _ => destruct c
         | _ ≫= _ = _ => apply bind_Exit1 in H as [H|(? & _ & H)]
         | reject_if _ _ = _ => apply reject_if_Exit1 in H as [_ ->]
         end; done.
Qed.

Lemma deriveSeed_Exit1 env (opts : obj) e : deriveSeed env opts ≠ Exit1 e.
Proof.
  unfold deriveSeed. destruct (nullish _); [|done]. intros H.
  apply bind_Exit1 in H as [H|(n & _ & H)]; [by apply normalizeSeedStrategy_Exit1 in H|].
  apply bind_Exit1 in H as [H|(seed & _ & H)]; [|done].
  destruct (is_str _ _).
  - unfold generateRandomSeed, read_seed in H. by destruct (readUInt32BE _).
  - unfold computePromptHashSeed, read_seed in H.
    destruct (Json.stringify _); [|done]. by destruct (readUInt32BE _).
Qed.

(** What a run rejected after workflow resolution went through. *)
Lemma resolveOptions_Exit1 env st e :
  resolveOptions env st = Exit1 e →
  e = NoPrompt ∨ e = VideoOnlyOptions →
  let cfg := openclawConfig env in
  let merged := mergeConfig cfg (cliSet st) (options st) in
  ∃ o1 o2 o3 : obj,
    validateTokenType merged.1 = Ok o1
    ∧ validateSeedStrategy o1 = Ok o2
    ∧ resolveWorkflow cfg o2 = Ok o3
    ∧ let o4 := applyDefaults cfg (cliSet st) merged.2 (resolveLastImage o3) in
      (e = NoPrompt ∧ on o4 "prompt" = false)
      ∨ (e = VideoOnlyOptions ∧ on o4 "prompt" = true ∧ rejectVideoOnly o4 = Exit1 e).
Proof.
  unfold resolveOptions, resolveUpToWorkflow. intros H He. simpl.
  destruct (mergeConfig _ _ _) as [o0 fromConfig]. simpl.
  apply bind_Exit1 in H as [H|([o3 fc] & Hup & H)].
  - exfalso.
    apply bind_Exit1 in H as [H|(o1 & _ & H)];
      [apply validateTokenType_Exit1 in H as ->; by destruct He|].
    apply bind_Exit1 in H as [H|(o2 & _ & H)];
      [apply validateSeedStrategy_Exit1 in H as ->; by destruct He|].
    apply bind_Exit1 in H as [H|(? & _ & H)];
      [apply validateStepsGuidance_Exit1 in H as [->| ->]; by destruct He|].
    apply bind_Exit1 in H as [H|(? & _ & H)]; [|done].
    apply resolveWorkflow_Exit1 in H as [[w ->]|(w & m & ->)]; by destruct He.
  - apply bind_Ok in Hup as (o1 & H1 & Hup). apply bind_Ok in Hup as (o2 & H2 & Hup).
    apply bind_Ok in Hup as ([] & _ & Hup). apply bind_Ok in Hup as (o3' & H3 & Hup).
    injection Hup as -> ->. exists o1, o2, o3. repeat (split; [done|]).
    apply bind_Exit1 in H as [H|([] & Hprompt & H)].
    { apply reject_if_Exit1 in H as [Hc ->]. left. split; [done|].
      by apply negb_true_iff in Hc. }
    apply reject_if_Ok, negb_false_iff in Hprompt.
    apply bind_Exit1 in H as [H|([] & _ & H)]; [right|exfalso].
    { pose proof H as H'. by apply reject_if_Exit1 in H' as [_ ->]. }
    apply bind_Exit1 in H as [H|([] & _ & H)];
      [apply validateAssets_Exit1 in H; destruct He as [->| ->]; by destruct H|].
    apply bind_Exit1 in H as [H|([] & _ & H)];
      [apply validateContextImages_Exit1 in H; destruct He as [->| ->]; by destruct H|].
    by apply deriveSeed_Exit1 in H.
Qed.

Lemma resolveWorkflow_image (cfg : value) (opts : obj) :
  on opts "video" = false → resolveWorkflow cfg opts = Ok opts.
Proof. unfold resolveWorkflow. by intros ->. Qed.

(** X11.  The error for video-only options is caused by the options of the
    command line alone: it is reported only when [--video] is missing and
    the command line left a value in one of the four video-only slots.
    No plugin default can bring it about. *)
Theorem video_only_error_is_the_users env st :
  resolveOptions env st = Exit1 VideoOnlyOptions →
  on (options st) "video" = false
  ∧ (on (options st) "refAudio" || on (options st) "refVideo"
     || on (options st) "videoWorkflow" || on (options st) "frames") = true.
Proof.
  intros H.
  apply resolveOptions_Exit1 in H as (o1 & o2 & o3 & H1 & H2 & H3 & H); [|by right].
  simpl in H. destruct H as [[? _]|(_ & _ & H)]; [done|].
  pose proof (merge_workflow (openclawConfig env) (cliSet st) (options st)) as Hwf.
  pose proof (merge_frame (openclawConfig env) (cliSet st) (options st)) as Hmerge.
  set (merged := mergeConfig _ _ _) in *.
  apply reject_if_Exit1 in H as [H _]. unfold on in *.
  rewrite !applyDefaults_frame, !resolveLastImage_frame in H by not_listed.
  apply andb_true_iff in H as [Hvideo H]. apply negb_true_iff in Hvideo.
  rewrite (resolveWorkflow_frame _ _ _ "video" H3) in Hvideo by done.
  rewrite resolveWorkflow_image in H3 by done. injection H3 as <-.
  rewrite !(validateSeedStrategy_frame _ _ "video" H2) in * by done.
  rewrite !(validateSeedStrategy_frame _ _ "refAudio" H2) in * by done.
  rewrite !(validateSeedStrategy_frame _ _ "refVideo" H2) in * by done.
  rewrite !(validateSeedStrategy_frame _ _ "videoWorkflow" H2) in * by done.
  rewrite !(validateSeedStrategy_frame _ _ "frames" H2) in * by done.
  rewrite !(validateTokenType_frame _ _ "video" H1) in * by done.
  rewrite !(validateTokenType_frame _ _ "refAudio" H1) in * by done.
  rewrite !(validateTokenType_frame _ _ "refVideo" H1) in * by done.
  rewrite !(validateTokenType_frame _ _ "videoWorkflow" H1) in * by done.
  rewrite !(validateTokenType_frame _ _ "frames" H1) in * by done.
  rewrite Hwf in H. rewrite !Hmerge in * by not_listed.
  fold (on (options st) "video") in *.
  rewrite Hvideo in *. by rewrite andb_false_r in H.
Qed.

(* ------------------------------------------------------------------ *)
(** ** The last image *)
(* ------------------------------------------------------------------ *)

Lemma inferVideoWorkflowFromAssets_ext (o1 o2 : obj) :
  assets_of o1 = assets_of o2 →
  inferVideoWorkflowFromAssets o1 = inferVideoWorkflowFromAssets o2.
Proof. unfold assets_of, inferVideoWorkflowFromAssets. by intros [= -> -> -> ->]. Qed.

(** X12.  The image of [--last-image] has no part in choosing the
    workflow: workflow resolution ends the same way with and without it,
    with the same workflow or the same error. *)
Theorem last_image_never_steers_workflow cfg (opts : obj) p :
  resolveWorkflow cfg (<["_lastImagePath" := p]> opts)
  = (λ o : obj, <["_lastImagePath" := p]> o) <$> resolveWorkflow cfg opts.
Proof.
  unfold resolveWorkflow, on.
  rewrite !(lookup_total_insert_ne opts "_lastImagePath") by done.
  destruct (truthy (opts !!! "video")); [|done].
  destruct (truthy (opts !!! "videoWorkflow")) eqn:Hwf.
  - destruct (normalizeVideoWorkflow _) as [n| | |]; simpl; try done.
    destruct (truthy n) eqn:Hn; simpl; [|done].
    rewrite !(lookup_total_insert_ne _ "videoWorkflow" "model") by done.
    rewrite !(lookup_total_insert_ne opts "_lastImagePath") by done.
    destruct (inferVideoWorkflowFromModel _) as [m| | |]; simpl; try done.
    rewrite !lookup_total_insert_eq, Hn. simpl.
    destruct (truthy m && str_neq n m); simpl; [done|].
    by rewrite insert_insert_ne.
  - simpl. rewrite !(lookup_total_insert_ne opts "_lastImagePath") by done.
    destruct (inferVideoWorkflowFromModel _) as [m| | |]; simpl; try done.
    rewrite Hwf. simpl.
    rewrite (inferVideoWorkflowFromAssets_ext (<["_lastImagePath" := p]> opts) opts).
    + by rewrite insert_insert_ne.
    + unfold assets_of, on. by rewrite !lookup_total_insert_ne.
Qed.

Lemma validateAssets_ext (o1 o2 : obj) :
  o1 !!! "video" = o2 !!! "video" → o1 !!! "videoWorkflow" = o2 !!! "videoWorkflow" →
  assets_of o1 = assets_of o2 →
  validateAssets o1 = validateAssets o2.
Proof.
  unfold assets_of, validateAssets, on. by intros -> -> [= -> -> -> ->].
Qed.

Lemma validateAssets_with_image (opts : obj) p :
  on opts "video" = true → workflowRequiresImage (opts !!! "videoWorkflow") = true →
  truthy p = true →
  validateAssets opts = Ok tt → validateAssets (<["refImage" := p]> opts) = Ok tt.
Proof.
  unfold workflowRequiresImage, validateAssets, on.
  rewrite !lookup_total_insert_eq. through_assignments.
  intros -> Hwf ->.
  destruct (is_str _ "t2v") eqn:Ht2v.
  { destruct (opts !!! "videoWorkflow") as [| | | |s| |]; try done. simpl in *.
    by apply String.eqb_eq in Ht2v as ->. }
  intros Hok. revert Hok. unfold reject_if.
  repeat match goal with
         | |- context [is_str ?v ?s] => destruct (is_str v s)
         | |- context [truthy ?v] => destruct (truthy v)
         end; simpl; done.
Qed.

Lemma resolveLastImage_slots (opts : obj) :
  resolveLastImage opts !!! "video" = opts !!! "video"
  ∧ resolveLastImage opts !!! "videoWorkflow" = opts !!! "videoWorkflow"
  ∧ resolveLastImage opts !!! "refImageEnd" = opts !!! "refImageEnd"
  ∧ resolveLastImage opts !!! "refAudio" = opts !!! "refAudio"
  ∧ resolveLastImage opts !!! "refVideo" = opts !!! "refVideo".
Proof. repeat apply conj; apply resolveLastImage_frame; not_listed. Qed.

(** The reference image after the last image is resolved. *)
Lemma resolveLastImage_refImage (opts : obj) :
  resolveLastImage opts !!! "refImage"
  = if on opts "_lastImagePath" && on opts "video"
       && workflowRequiresImage (opts !!! "videoWorkflow") && negb (on opts "refImage")
    then opts !!! "_lastImagePath"
    else opts !!! "refImage".
Proof.
  unfold resolveLastImage.
  destruct (on opts "_lastImagePath"); [|done]. simpl.
  rewrite lookup_total_delete_ne by done.
  destruct (on opts "video"); simpl; [|by rewrite lookup_total_insert_ne].
  destruct (workflowRequiresImage _); simpl; [|done].
  unfold assign_if. destruct (on opts "refImage"); simpl; [done|].
  by rewrite lookup_total_insert_eq.
Qed.

Lemma validateAssets_after_defaults cfg (cli : obj) fromConfig (opts : obj) :
  validateAssets (applyDefaults cfg cli fromConfig opts) = validateAssets opts.
Proof.
  apply validateAssets_ext; unfold assets_of, on;
    by rewrite !applyDefaults_frame by not_listed.
Qed.

Lemma validateAssets_last_image (opts : obj) :
  validateAssets (resolveLastImage opts)
  = validateAssets
      (if on opts "_lastImagePath" && on opts "video"
          && workflowRequiresImage (opts !!! "videoWorkflow") && negb (on opts "refImage")
       then <["refImage" := opts !!! "_lastImagePath"]> opts
       else opts).
Proof.
  destruct (resolveLastImage_slots opts) as (Hv & Hwf & Hend & Haudio & Hvideo).
  pose proof (resolveLastImage_refImage opts) as Himage.
  apply validateAssets_ext; unfold assets_of, on in *;
    destruct (_ && _ && _ && _);
    rewrite ?lookup_total_insert_eq, ?lookup_total_insert_ne by done; congruence.
Qed.

(** X13.  Resolving [--last-image] never turns a request that asset
    validation accepts into one that it rejects. *)
Theorem last_image_never_breaks_validation cfg (cli : obj) fromConfig (opts : obj) :
  validateAssets opts = Ok tt →
  validateAssets (applyDefaults cfg cli fromConfig (resolveLastImage opts)) = Ok tt.
Proof.
  rewrite validateAssets_after_defaults, validateAssets_last_image.
  intros Hok.
  destruct (on opts "_lastImagePath") eqn:Hlast; [|done].
  destruct (on opts "video") eqn:Hvideo; [|done].
  destruct (workflowRequiresImage _) eqn:Hwf; [|done].
  destruct (on opts "refImage"); [done|]. simpl.
  by apply validateAssets_with_image.
Qed.

(** X14.  For an image-to-video request that carries neither audio nor
    video, the image of [--last-image] is the image that the workflow
    requires: the request passes asset validation without [--ref]. *)
Theorem last_image_supplies_the_i2v_image cfg (cli : obj) fromConfig (opts : obj) :
  on opts "_lastImagePath" = true → on opts "video" = true →
  opts !!! "videoWorkflow" = VStr "i2v" →
  on opts "refAudio" = false → on opts "refVideo" = false →
  validateAssets (applyDefaults cfg cli fromConfig (resolveLastImage opts)) = Ok tt.
Proof.
  rewrite validateAssets_after_defaults, validateAssets_last_image.
  intros Hlast Hvideo Hwf Haudio Hrv. rewrite Hlast, Hvideo, Hwf. simpl.
  unfold validateAssets, on in *.
  destruct (truthy (opts !!! "refImage")) eqn:Himage; simpl.
  - by rewrite Hvideo, Hwf, Himage, Haudio, Hrv.
  - rewrite !lookup_total_insert_eq. through_assignments.
    by rewrite Hvideo, Hwf, Hlast, Haudio, Hrv.
Qed.

Lemma js_or_left a b : truthy a = true → js_or a b = a.
Proof. unfold js_or. by intros ->. Qed.

Lemma applyDefaults_model_slot cfg (cli : obj) fromConfig (opts : obj) :
  on opts "model" = true →
  applyDefaults cfg cli fromConfig opts !!! "model" = opts !!! "model".
Proof.
  intros Hmodel. unfold on in Hmodel. unfold applyDefaults.
  rewrite !(js_or_left (opts !!! "model")) by done.
  split_conditionals; rewrite ?assign_if_other by done;
    by rewrite lookup_total_insert_eq.
Qed.

(** X8.  A model given on the command line is the model of the resolved
    request: no plugin default and no built-in default replaces it. *)
Theorem explicit_model_is_kept env st (r : obj) :
  resolveOptions env st = Ok r → on (options st) "model" = true →
  r !!! "model" = options st !!! "model".
Proof.
  intros H Hmodel.
  apply resolveOptions_stages in H as (o1 & o2 & o3 & H1 & H2 & _ & H3 & H).
  simpl in H. destruct H as (_ & _ & _ & _ & Hseed).
  rewrite (resolveSeed_frame _ _ _ "model" Hseed) by not_listed.
  assert (resolveLastImage o3 !!! "model" = options st !!! "model") as Hkept.
  { rewrite resolveLastImage_frame by not_listed.
    rewrite (resolveWorkflow_frame _ _ _ "model" H3) by done.
    rewrite (validateSeedStrategy_frame _ _ "model" H2) by done.
    rewrite (validateTokenType_frame _ _ "model" H1) by done.
    apply merge_frame. not_listed. }
  rewrite applyDefaults_model_slot; [done|]. unfold on. by rewrite Hkept.
Qed.

(** X15.  In image mode [--last-image] makes the request an image edit:
    the image joins the context images, and a request without model gets
    the edit model, the plugin's or else the built-in one. *)
Theorem last_image_makes_an_edit cfg (cli : obj) fromConfig (opts : obj) images :
  on opts "_lastImagePath" = true → on opts "video" = false →
  opts !!! "contextImages" = VArr images → on opts "model" = false →
  let resolved := applyDefaults cfg cli fromConfig (resolveLastImage opts) in
  resolved !!! "contextImages" = VArr (images ++ [opts !!! "_lastImagePath"])
  ∧ resolved !!! "model"
    = js_or (prop cfg "defaultEditModel") (VStr "qwen_image_edit_2511_fp8_lightning").
Proof.
  intros Hlast Hvideo Himages Hmodel. simpl.
  assert (resolveLastImage opts
          = delete "_lastImagePath"
              (<["contextImages" := VArr (images ++ [opts !!! "_lastImagePath"])]> opts))
    as ->.
  { unfold resolveLastImage. by rewrite Hlast, Hvideo, Himages. }
  split.
  - rewrite applyDefaults_frame by not_listed.
    by rewrite lookup_total_delete_ne, lookup_total_insert_eq.
  - unfold applyDefaults, on in *.
    rewrite !lookup_total_delete_ne, !lookup_total_insert_ne by done.
    rewrite lookup_total_insert_eq, Hvideo.
    destruct images; simpl; rewrite assign_if_other by done;
      rewrite lookup_total_insert_eq; unfold js_or at 2; by rewrite Hmodel.
Qed.

(* ------------------------------------------------------------------ *)
(** ** Defaults and inference against validation *)
(* ------------------------------------------------------------------ *)

Lemma js_or_right a b : truthy a = false → js_or a b = b.
Proof. unfold js_or. by intros ->. Qed.

(** X16.  The built-in model of a workflow is a model of that workflow:
    when a video request names no model and the plugin configures none
    for its workflow, the model that the defaults select is one from
    which the workflow/model check infers the same workflow. *)
Theorem builtin_video_model_matches_workflow cfg (cli : obj) fromConfig (opts : obj) w :
  on opts "video" = true → opts !!! "videoWorkflow" = VStr (workflow_name w) →
  on opts "model" = false →
  truthy (prop_at (js_or (prop cfg "videoModels") (VObj [])) (VStr (workflow_name w)))
  = false →
  inferVideoWorkflowFromModel (applyDefaults cfg cli fromConfig opts !!! "model")
  = Ok (VStr (workflow_name w)).
Proof.
  intros Hvideo Hwf Hmodel Hcfg. unfold applyDefaults. rewrite Hvideo.
  rewrite assign_if_other by done. rewrite lookup_total_insert_eq.
  unfold on in *. rewrite Hwf, workflow_name_truthy.
  rewrite (js_or_right (opts !!! "model")) by done.
  rewrite (js_or_right (prop_at _ _)) by done.
  by destruct w.
Qed.

(** X17.  When the workflow is left to be inferred from the assets, the
    request passes asset validation exactly when a video or an audio
    reference comes with a reference image and the two do not come
    together; a request with images only, or with no asset, is always
    accepted. *)
Theorem inferred_workflow_validation cfg (opts : obj) m :
  on opts "video" = true → on opts "videoWorkflow" = false →
  inferVideoWorkflowFromModel (opts !!! "model") = Ok m → truthy m = false →
  truthy (prop cfg "defaultVideoWorkflow") = false →
  ∃ r : obj, resolveWorkflow cfg opts = Ok r
    ∧ assets_of r = assets_of opts
    ∧ (validateAssets r = Ok tt ↔ inference_accepts (assets_of opts) = true).
Proof.
  intros Hvideo Hwf Hm Hfalsy Hdefault.
  rewrite (inference_order cfg opts m Hvideo Hwf Hm), Hfalsy, Hdefault.
  eexists. split; [done|].
  split; [unfold assets_of, on; by rewrite !lookup_total_insert_ne|].
  unfold validateAssets, inferVideoWorkflowFromAssets, inference_accepts, assets_of, on in *.
  rewrite !lookup_total_insert_eq. through_assignments. rewrite Hvideo. simpl.
  destruct (truthy (opts !!! "refVideo")), (truthy (opts !!! "refAudio")),
    (truthy (opts !!! "refImage")), (truthy (opts !!! "refImageEnd")); simpl;
    split; done.
Qed.

(** X18.  Normalisation is idempotent: the names that the two
    normalisers return are names they accept and map to themselves, so
    the strategy that validation normalised is unchanged when seed
    derivation normalises it again. *)
Theorem normalisation_is_idempotent v w u s :
  normalizeVideoWorkflow v = Ok w → normalizeSeedStrategy u = Ok s →
  normalizeVideoWorkflow w = Ok w ∧ normalizeSeedStrategy s = Ok s.
Proof.
  intros Hw Hs. split.
  - by apply normalizeVideoWorkflow_inv in Hw as [->|[[] ->]].
  - by apply normalizeSeedStrategy_inv in Hs as [->|[->| ->]].
Qed.

(* ------------------------------------------------------------------ *)
(** ** The request *)
(* ------------------------------------------------------------------ *)

Lemma assoc_set_eq k v ps : assoc k (assoc_set k v ps) = v.
Proof.
  induction ps as [|[k' v'] ps IH]; simpl.
  - by rewrite String.eqb_refl.
  - destruct (k =? k') eqn:Hk; simpl; by rewrite ?String.eqb_refl, ?Hk.
Qed.

Lemma assoc_set_ne k k' v ps : k ≠ k' → assoc k' (assoc_set k v ps) = assoc k' ps.
Proof.
  intros Hne. apply String.eqb_neq in Hne.
  induction ps as [|[k0 v0] ps IH]; simpl.
  - by rewrite String.eqb_sym, Hne.
  - destruct (k =? k0) eqn:Hk; simpl; [|by rewrite IH].
    apply String.eqb_eq in Hk as <-. by rewrite String.eqb_sym, Hne.
Qed.

Lemma has_assoc_set k k' v ps :
  existsb (λ p, k' =? p.1) (assoc_set k v ps)
  = (k' =? k) || existsb (λ p, k' =? p.1) ps.
Proof.
  induction ps as [|[k0 v0] ps IH]; simpl; [done|].
  destruct (k =? k0) eqn:Hk; simpl.
  - apply String.eqb_eq in Hk as <-. by destruct (k' =? k).
  - rewrite IH. by destruct (k' =? k), (k' =? k0).
Qed.

Lemma prop_set_prop_ne k k' v o : k ≠ k' → prop (set_prop k v o) k' = prop o k'.
Proof. intros Hne. destruct o; try done. by apply assoc_set_ne. Qed.

Lemma prop_set_prop_if_ne (c : bool) k k' v o :
  k ≠ k' → prop (set_prop_if c k v o) k' = prop o k'.
Proof. intros Hne. destruct c; [|done]. by apply prop_set_prop_ne. Qed.

Lemma prop_set_prop_eq k v o : (∃ ps, o = VObj ps) → prop (set_prop k v o) k = v.
Proof. intros [ps ->]. apply assoc_set_eq. Qed.

Lemma prop_set_prop_if_eq (c : bool) k v o :
  (∃ ps, o = VObj ps) → prop (set_prop_if c k v o) k = if c then v else prop o k.
Proof. intros Ho. destruct c; [|done]. by apply prop_set_prop_eq. Qed.

Lemma set_prop_obj k v o : (∃ ps, o = VObj ps) → ∃ ps, set_prop k v o = VObj ps.
Proof. intros [ps ->]. by eexists. Qed.

Lemma set_prop_if_obj (c : bool) k v o :
  (∃ ps, o = VObj ps) → ∃ ps, set_prop_if c k v o = VObj ps.
Proof. intros Ho. destruct c; [|done]. by apply set_prop_obj. Qed.

Lemma has_prop_set_prop k k' v o :
  (∃ ps, o = VObj ps) → has_prop (set_prop k v o) k' = (k' =? k) || has_prop o k'.
Proof. intros [ps ->]. apply has_assoc_set. Qed.

Lemma has_prop_set_prop_if (c : bool) k k' v o :
  (∃ ps, o = VObj ps) →
  has_prop (set_prop_if c k v o) k' = (c && (k' =? k)) || has_prop o k'.
Proof. intros Ho. destruct c; [|done]. by apply has_prop_set_prop. Qed.

Ltac names_differ := apply String.eqb_neq; reflexivity.

Ltac is_record :=
  repeat first [apply set_prop_if_obj | apply set_prop_obj]; by eexists.

(** Reading one property of a request under construction. *)
Ltac read_prop :=
  repeat first
    [ rewrite prop_set_prop_if_ne by names_differ
    | rewrite prop_set_prop_ne by names_differ
    | rewrite prop_set_prop_if_eq by is_record
    | rewrite prop_set_prop_eq by is_record ];
  try reflexivity.

Section RequestProperties.

Variable media : string → option buffer.
Variables guidance_lightning guidance_full : value.

Lemma buildRequest_fields cfg (opts : obj) req :
  buildRequest media guidance_lightning guidance_full cfg opts = Some req →
  prop (request_config req) "modelId" = opts !!! "model"
  ∧ prop (request_config req) "positivePrompt" = opts !!! "prompt"
  ∧ prop (request_config req) "numberOfMedia" = opts !!! "count"
  ∧ prop (request_config req) "width" = opts !!! "width"
  ∧ prop (request_config req) "height" = opts !!! "height"
  ∧ prop (request_config req) "tokenType" = js_or (opts !!! "tokenType") (VStr "spark")
  ∧ prop (request_config req) "seed"
    = (if nullish (opts !!! "seed") then VUndef else opts !!! "seed").
Proof.
  unfold buildRequest.
  destruct (on opts "video"); [|destruct (nonempty _)]; intros H;
    apply fmap_Some in H as (c & Hc & ->); simpl.
  - unfold videoProjectConfig in Hc.
    apply bind_Some in Hc as (b1 & _ & Hc). apply bind_Some in Hc as (b2 & _ & Hc).
    apply bind_Some in Hc as (b3 & _ & Hc). apply bind_Some in Hc as (b4 & _ & Hc).
    injection Hc as <-.
    destruct (on opts "frames"); repeat apply conj; read_prop;
      by destruct (nullish _).
  - unfold editConfig in Hc.
    apply bind_Some in Hc as (b1 & _ & Hc). apply bind_Some in Hc as (b2 & _ & Hc).
    apply bind_Some in Hc as (b3 & _ & Hc). injection Hc as <-.
    repeat apply conj; read_prop; by destruct (nullish _).
  - unfold imageProjectConfig in Hc. injection Hc as <-.
    repeat apply conj; read_prop; by destruct (nullish _).
Qed.

Lemma js_coalesce_left a b : nullish a = false → js_coalesce a b = a.
Proof. unfold js_coalesce. by intros ->. Qed.

Lemma or_by_model_left a model fast full :
  nullish a = false → or_by_model a model fast full = Some a.
Proof. unfold or_by_model. by intros ->. Qed.

(** What a request holds under [steps] and [guidance] when the command
    line gave them. *)
Lemma buildRequest_tuning cfg (opts : obj) req :
  buildRequest media guidance_lightning guidance_full cfg opts = Some req →
  (nullish (opts !!! "guidance") = false →
   prop (request_config req) "guidance" = opts !!! "guidance")
  ∧ (nullish (opts !!! "steps") = false →
     match req with
     | createImageEditProject c => prop c "steps" = opts !!! "steps"
     | createVideoProject c | createImageProject c =>
         has_prop c "steps" = on opts "steps"
         ∧ (on opts "steps" = true → prop c "steps" = opts !!! "steps")
     end).
Proof.
  unfold buildRequest.
  destruct (on opts "video"); [|destruct (nonempty _)]; intros H;
    apply fmap_Some in H as (c & Hc & ->); simpl.
  - unfold videoProjectConfig in Hc.
    apply bind_Some in Hc as (b1 & _ & Hc). apply bind_Some in Hc as (b2 & _ & Hc).
    apply bind_Some in Hc as (b3 & _ & Hc). apply bind_Some in Hc as (b4 & _ & Hc).
    injection Hc as <-. destruct (on opts "frames"); split.
    all: try (intros Hg; rewrite !(js_coalesce_left (opts !!! "guidance")) by done;
              read_prop; by rewrite Hg).
    all: intros Hs; rewrite !(js_coalesce_left (opts !!! "steps")) by done;
      fold (on opts "steps"); split;
      [ rewrite !has_prop_set_prop_if by is_record; simpl;
        by rewrite !andb_false_r, !orb_false_r, ?andb_true_r
      | intros Hon; read_prop; by rewrite Hon ].
  - unfold editConfig in Hc.
    apply bind_Some in Hc as (b1 & _ & Hc). apply bind_Some in Hc as (steps & Hsteps & Hc).
    apply bind_Some in Hc as (guidance & Hguidance & Hc). injection Hc as <-. split.
    + intros Hg. rewrite (js_coalesce_left (opts !!! "guidance")) in Hguidance by done.
      rewrite or_by_model_left in Hguidance by done. injection Hguidance as <-.
      by read_prop.
    + intros Hs. rewrite (js_coalesce_left (opts !!! "steps")) in Hsteps by done.
      rewrite or_by_model_left in Hsteps by done. injection Hsteps as <-.
      by read_prop.
  - unfold imageProjectConfig in Hc. injection Hc as <-. split.
    + intros Hg. rewrite !(js_coalesce_left (opts !!! "guidance")) by done.
      by read_prop.
    + intros Hs. rewrite !(js_coalesce_left (opts !!! "steps")) by done.
      fold (on opts "steps"). split.
      * rewrite !has_prop_set_prop_if by is_record. simpl.
        by rewrite !andb_false_r, !orb_false_r, ?andb_true_r.
      * intros Hon. read_prop. by rewrite Hon.
Qed.

(** X19.  What is sent is what was resolved: the request of a run that
    resolved its options carries the resolved model, prompt and seed,
    the seed is always present, and the token type is [spark] or
    [sogni]. *)
Theorem request_carries_the_resolved_options env st (r : obj) req :
  resolveOptions env st = Ok r → buildRequest media guidance_lightning guidance_full (openclawConfig env) r = Some req →
  prop (request_config req) "modelId" = r !!! "model"
  ∧ prop (request_config req) "positivePrompt" = r !!! "prompt"
  ∧ prop (request_config req) "seed" = r !!! "seed"
  ∧ nullish (prop (request_config req) "seed") = false
  ∧ (prop (request_config req) "tokenType" = VStr "spark"
     ∨ prop (request_config req) "tokenType" = VStr "sogni").
Proof.
  intros Hr Hreq.
  destruct (resolveOptions_complete _ _ _ Hr) as (_ & _ & Hseed).
  destruct (resolveOptions_canonical _ _ _ Hr) as (Htoken & _).
  destruct (buildRequest_fields _ _ _ Hreq)
    as (-> & -> & _ & _ & _ & -> & ->).
  rewrite Hseed. repeat (split; [done|]).
  unfold js_or. destruct Htoken as [->|[->|Hoff]]; simpl; auto.
  unfold on in Hoff. rewrite Hoff. by left.
Qed.

(** X20.  A number of steps or a guidance given on the command line, and
    other than zero, is sent as given, whatever the plugin configures
    for the model. *)
Theorem command_line_tuning_is_sent cfg (opts : obj) req k :
  buildRequest media guidance_lightning guidance_full cfg opts = Some req →
  k = "steps" ∨ k = "guidance" → on opts k = true →
  prop (request_config req) k = opts !!! k.
Proof.
  intros Hreq Hk Hon. destruct (buildRequest_tuning _ _ _ Hreq) as [Hg Hs].
  pose proof (truthy_not_nullish _ Hon) as Hgiven.
  destruct Hk as [-> | ->]; [|by apply Hg].
  specialize (Hs Hgiven). destruct req; simpl; [by apply Hs|done|by apply Hs].
Qed.

(** X21.  [--steps 0] passes validation and is then sent only with an
    image edit: a video or an image request leaves the steps out, and
    the steps the plugin configures for the model are not sent in their
    place. *)
Theorem zero_steps_are_sent_only_with_an_edit cfg (opts : obj) req :
  opts !!! "steps" = VNum (Int 0) → buildRequest media guidance_lightning guidance_full cfg opts = Some req →
  match req with
  | createImageEditProject c => prop c "steps" = VNum (Int 0)
  | createVideoProject c | createImageProject c => has_prop c "steps" = false
  end.
Proof.
  intros Hzero Hreq. destruct (buildRequest_tuning _ _ _ Hreq) as [_ Hs].
  rewrite Hzero in Hs. specialize (Hs eq_refl). unfold on in Hs. rewrite Hzero in Hs.
  destruct req; [by destruct Hs|done|by destruct Hs].
Qed.

(** X22.  A video request carries the frame count or the duration, never
    both: with [--frames] the duration is left out, even one given on
    the command line. *)
Theorem video_request_has_frames_or_duration cfg (opts : obj) c :
  buildRequest media guidance_lightning guidance_full cfg opts = Some (createVideoProject c) →
  has_prop c "frames" = on opts "frames"
  ∧ has_prop c "duration" = negb (on opts "frames")
  ∧ prop c (if on opts "frames" then "frames" else "duration")
    = opts !!! (if on opts "frames" then "frames" else "duration").
Proof.
  unfold buildRequest.
  destruct (on opts "video"); [|destruct (nonempty _)]; intros H;
    apply fmap_Some in H as (c' & Hc & [= <-]).
  unfold videoProjectConfig in Hc.
  apply bind_Some in Hc as (b1 & _ & Hc). apply bind_Some in Hc as (b2 & _ & Hc).
  apply bind_Some in Hc as (b3 & _ & Hc). apply bind_Some in Hc as (b4 & _ & Hc).
  injection Hc as <-.
  destruct (on opts "frames"); simpl; rewrite !has_prop_set_prop_if by is_record;
    simpl; rewrite !andb_false_r; repeat apply conj; try done; by read_prop.
Qed.

End RequestProperties.

(* ------------------------------------------------------------------ *)
(** ** Credentials *)
(* ------------------------------------------------------------------ *)

Lemma split_on_whole sep s : has_char sep s = false → split_on sep s = [s].
Proof.
  induction s as [|c s IH]; simpl; [done|].
  intros H. apply orb_false_iff in H as [-> H]. by rewrite IH.
Qed.

Lemma split_on_app sep a b :
  has_char sep a = false →
  split_on sep (a ++ String sep b) = a :: split_on sep b.
Proof.
  induction a as [|c a IH]; simpl.
  - by rewrite Ascii.eqb_refl.
  - intros H. apply orb_false_iff in H as [-> H]. by rewrite IH.
Qed.

(** X23.  A value ends at its first [=]: whatever follows a second [=] on
    a line is dropped, so a password that contains [=] is read
    incompletely. *)
Theorem credential_value_ends_at_equals_sign (creds : obj) key val rest :
  has_char "=" key = false → has_char "=" val = false →
  readLine creds (key ++ "=" ++ val ++ "=" ++ rest)
  = readLine creds (key ++ "=" ++ val).
Proof.
  intros Hkey Hval. unfold readLine.
  change (key ++ "=" ++ val ++ "=" ++ rest)
    with (key ++ String "=" (val ++ String "=" rest)).
  change (key ++ "=" ++ val) with (key ++ String "=" val).
  by rewrite !split_on_app, split_on_whole.
Qed.

(** X24.  The credentials come from one source: from the file when it
    holds both a user name and a password, else from the environment
    when both variables are set.  A user name of one source is never
    paired with the password of the other. *)
Theorem credentials_come_from_one_source file env_username env_password creds :
  loadCredentials file env_username env_password = Credentials creds →
  on creds "SOGNI_USERNAME" = true ∧ on creds "SOGNI_PASSWORD" = true
  ∧ ((∃ content, file = CredentialsFile content
        ∧ creds = fold_left readLine (split_on "010" content) ∅)
     ∨ (creds !!! "SOGNI_USERNAME" = env_username
        ∧ creds !!! "SOGNI_PASSWORD" = env_password)).
Proof.
  assert (∀ c,
    (if truthy env_username && truthy env_password
     then Credentials (<["SOGNI_PASSWORD" := env_password]>
                         (<["SOGNI_USERNAME" := env_username]> ∅))
     else NoCredentialsFound) = Credentials c →
    on c "SOGNI_USERNAME" = true ∧ on c "SOGNI_PASSWORD" = true
    ∧ c !!! "SOGNI_USERNAME" = env_username ∧ c !!! "SOGNI_PASSWORD" = env_password)
    as Henv.
  { intros c. destruct (truthy env_username) eqn:Hu, (truthy env_password) eqn:Hp;
      try done. intros [= <-]. unfold on.
    rewrite lookup_total_insert_ne, !lookup_total_insert_eq by done. done. }
  unfold loadCredentials. destruct file as [| |content]; [|done|].
  - intros H. apply Henv in H as (? & ? & ? & ?). auto.
  - destruct (on _ "SOGNI_USERNAME" && on _ "SOGNI_PASSWORD") eqn:Hboth.
    + intros [= <-]. apply andb_true_iff in Hboth as [? ?].
      repeat (split; [done|]). left. by exists content.
    + intros H. apply Henv in H as (? & ? & ? & ?). auto.
Qed.

(* ------------------------------------------------------------------ *)
(** ** Two invariants of the whole run *)
(* ------------------------------------------------------------------ *)

Lemma parseArg_context env arg v st st' c :
  (∃ images, options st !!! "contextImages" = VArr images) →
  parseArg env arg v st = Ok (st', c) →
  ∃ images, options st' !!! "contextImages" = VArr images.
Proof.
  intros [images Himages] H. unfold parseArg in H.
  repeat match type of H with
         | (if ?c then _ else _) = _ => destruct c
         end;
    try (injection H as <- <-; simpl;
         rewrite ?lookup_total_insert_ne by done; by eexists).
  - injection H as <- <-. simpl. rewrite lookup_total_insert_eq, Himages. by eexists.
  - apply bind_Ok in H as (st1 & Hread & H). injection H as <- <-.
    unfold readLastImage in Hread.
    destruct (lastRenderFile env) as [| |record]; try done;
      [injection Hread as <-; by eexists|].
    destruct (nullish record); [done|].
    destruct (truthy _); injection Hread as <-; simpl;
      rewrite ?lookup_total_insert_ne by done; by eexists.
  - done.
  - done.
Qed.

Lemma resolveLastImage_context (opts : obj) :
  (∃ images, opts !!! "contextImages" = VArr images) →
  ∃ images, resolveLastImage opts !!! "contextImages" = VArr images.
Proof.
  intros [images Himages]. unfold resolveLastImage.
  destruct (on opts "_lastImagePath"); [|by eexists].
  rewrite lookup_total_delete_ne by done.
  destruct (on opts "video").
  - destruct (workflowRequiresImage _); rewrite ?assign_if_other by done; by eexists.
  - rewrite lookup_total_insert_eq, Himages. by eexists.
Qed.

(** X25.  [options.contextImages] is an array from the first line of the
    script to the resolved options: parsing and the resolution of
    [--last-image] only ever push on it, and nothing else assigns it. *)
Theorem context_images_stay_an_array env args st (r : obj) :
  parseArgs env args initial_state = Ok st → resolveOptions env st = Ok r →
  ∃ images, r !!! "contextImages" = VArr images.
Proof.
  intros Hparse Hr.
  assert (∃ images, options st !!! "contextImages" = VArr images) as Hst.
  { apply (parseArgs_invariant env
             (λ s, ∃ images, options s !!! "contextImages" = VArr images)
             (parseArg_context env) args initial_state st); [|done].
    by exists []. }
  apply resolveOptions_stages in Hr as (o1 & o2 & o3 & H1 & H2 & _ & H3 & Hr).
  simpl in Hr. destruct Hr as (_ & _ & _ & _ & Hseed).
  rewrite (resolveSeed_frame _ _ _ "contextImages" Hseed) by not_listed.
  rewrite applyDefaults_frame by not_listed.
  apply resolveLastImage_context.
  rewrite (resolveWorkflow_frame _ _ _ "contextImages" H3) by done.
  rewrite (validateSeedStrategy_frame _ _ "contextImages" H2) by done.
  rewrite (validateTokenType_frame _ _ "contextImages" H1) by done.
  rewrite merge_frame by not_listed. done.
Qed.

(** X26.  The error for a missing prompt is reported only when parsing
    left no prompt: no later stage clears it. *)
Theorem missing_prompt_error_is_the_users env st :
  resolveOptions env st = Exit1 NoPrompt → on (options st) "prompt" = false.
Proof.
  intros H.
  apply resolveOptions_Exit1 in H as (o1 & o2 & o3 & H1 & H2 & H3 & H); [|by left].
  simpl in H. destruct H as [[_ H]|[? _]]; [|done].
  unfold on in *. rewrite applyDefaults_frame, resolveLastImage_frame in H by not_listed.
  rewrite (resolveWorkflow_frame _ _ _ "prompt" H3) in H by done.
  rewrite (validateSeedStrategy_frame _ _ "prompt" H2) in H by done.
  rewrite (validateTokenType_frame _ _ "prompt" H1) in H by done.
  by rewrite merge_frame in H by not_listed.
Qed.

(* ------------------------------------------------------------------ *)
(** ** The properties on the sample inputs *)
(* ------------------------------------------------------------------ *)

(** The sample runs. *)
Lemma seed42_run : resolveOptions bare_env seed42_state = Ok seed42_resolved_options.
Proof.
  exact (eq_refl (Ok seed42_resolved_options)
         <: resolveOptions bare_env seed42_state = Ok seed42_resolved_options).
Qed.

Lemma flux_run : resolveOptions bare_env flux_state = Ok flux_resolved.
Proof.
  exact (eq_refl (Ok flux_resolved)
         <: resolveOptions bare_env flux_state = Ok flux_resolved).
Qed.

Lemma clip_parsed : parseArgs bare_env clip_args initial_state = Ok clip_state.
Proof.
  exact (eq_refl (Ok clip_state)
         <: parseArgs bare_env clip_args initial_state = Ok clip_state).
Qed.

Lemma clip_run : resolveOptions bare_env clip_state = Ok clip_resolved.
Proof.
  exact (eq_refl (Ok clip_resolved)
         <: resolveOptions bare_env clip_state = Ok clip_resolved).
Qed.

Lemma studio_clip_run : resolveOptions studio_env clip_state = Ok studio_clip_resolved.
Proof.
  exact (eq_refl (Ok studio_clip_resolved)
         <: resolveOptions studio_env clip_state = Ok studio_clip_resolved).
Qed.

Lemma frames_run : resolveOptions bare_env frames_state = Exit1 VideoOnlyOptions.
Proof. vm_compute. reflexivity. Qed.

Lemma cat_parsed :
  parseArgs bare_env ["a cat wearing a hat"; "a dog"] initial_state = Ok cat_state.
Proof.
  exact (eq_refl (Ok cat_state)
         <: parseArgs bare_env ["a cat wearing a hat"; "a dog"] initial_state
            = Ok cat_state).
Qed.

Lemma credentials_sample_read :
  loadCredentials (CredentialsFile credentials_sample) VUndef VUndef
  = Credentials credentials_read.
Proof.
  exact (eq_refl (Credentials credentials_read)
         <: loadCredentials (CredentialsFile credentials_sample) VUndef VUndef
            = Credentials credentials_read).
Qed.

Lemma trim_sample :
  trim (String "194" (String "160" (String "009" "a b" ++ String "013" " "))) = "a b".
Proof. vm_compute. reflexivity. Qed.

Lemma unset_flag_means_builtin_default_witness :
  options seed42_state !!! "width" = initial_options !!! "width".
Proof.
  apply (unset_flag_means_builtin_default bare_env seed42_args seed42_state
           "width" "width");
    [apply seed42_parsed | simpl; auto 10 | vm_compute; reflexivity].
Defined.

Lemma first_positional_is_prompt_witness :
  options cat_state !!! "prompt" = VStr "a cat wearing a hat".
Proof.
  apply (first_positional_is_prompt bare_env "a cat wearing a hat" ["a dog"]
           initial_state cat_state);
    [reflexivity | discriminate | vm_compute; reflexivity | exact cat_parsed].
Defined.

Lemma unknown_option_is_ignored_witness :
  parseArgs bare_env ("--bogus" :: seed42_args) initial_state
  = parseArgs bare_env seed42_args initial_state.
Proof.
  apply (unknown_option_is_ignored bare_env "--bogus" seed42_args initial_state);
    [unfold known_flags; not_listed | left; reflexivity].
Defined.

Lemma parsing_stops_only_on_three_flags_witness :
  ∃ st', parseArgs bare_env ["--width"; "wide"; "--bogus"; "p"; "--seed"] initial_state
         = Ok st'.
Proof.
  apply (parsing_stops_only_on_three_flags bare_env
           ["--width"; "wide"; "--bogus"; "p"; "--seed"] initial_state);
    [not_listed | not_listed | left; not_listed].
Defined.

Lemma resolved_request_is_complete_witness :
  on seed42_resolved_options "prompt" = true
  ∧ on seed42_resolved_options "model" = true
  ∧ nullish (seed42_resolved_options !!! "seed") = false.
Proof.
  apply (resolved_request_is_complete bare_env seed42_state). exact seed42_run.
Defined.

Lemma resolved_names_are_canonical_witness :
  (flux_resolved !!! "tokenType" = VStr "spark"
   ∨ flux_resolved !!! "tokenType" = VStr "sogni"
   ∨ on flux_resolved "tokenType" = false)
  ∧ (flux_resolved !!! "seedStrategy" = VStr "random"
     ∨ flux_resolved !!! "seedStrategy" = VStr "prompt-hash"
     ∨ on flux_resolved "seedStrategy" = false).
Proof.
  apply (resolved_names_are_canonical bare_env flux_state). exact flux_run.
Defined.

Lemma resolved_workflow_is_named_witness :
  ∃ w, clip_resolved !!! "videoWorkflow" = VStr (workflow_name w).
Proof.
  apply (resolved_workflow_is_named bare_env clip_state);
    [exact clip_run | vm_compute; reflexivity | right; vm_compute; reflexivity].
Defined.

Lemma explicit_model_is_kept_witness :
  flux_resolved !!! "model" = VStr "flux1-schnell".
Proof.
  transitivity (options flux_state !!! "model"); [|vm_compute; reflexivity].
  apply (explicit_model_is_kept bare_env flux_state);
    [exact flux_run | vm_compute; reflexivity].
Defined.

Lemma chosen_timeout_is_kept_witness :
  studio_clip_resolved !!! "timeout" = VNum (Int 30000).
Proof.
  transitivity
    (if on (cliSet clip_state) "timeout" then options clip_state !!! "timeout"
     else seconds_to_ms
            (prop (openclawConfig studio_env) (timeout_key (options clip_state))));
    [|vm_compute; reflexivity].
  apply (chosen_timeout_is_kept studio_env clip_state);
    [exact studio_clip_run | right; split; vm_compute; reflexivity].
Defined.

Lemma builtin_timeout_by_request_kind_witness :
  clip_resolved !!! "timeout" = VNum (Int 300000).
Proof.
  transitivity
    (VNum (Int (if on clip_resolved "video" then 300000
                else if nonempty (clip_resolved !!! "contextImages") then 60000
                else 30000)));
    [|vm_compute; reflexivity].
  apply (builtin_timeout_by_request_kind bare_env clip_args clip_state);
    [exact clip_parsed | exact clip_run | reflexivity | vm_compute; reflexivity].
Defined.

Lemma video_only_error_is_the_users_witness :
  on (options frames_state) "video" = false
  ∧ (on (options frames_state) "refAudio" || on (options frames_state) "refVideo"
     || on (options frames_state) "videoWorkflow" || on (options frames_state) "frames")
    = true.
Proof.
  apply (video_only_error_is_the_users bare_env frames_state). exact frames_run.
Defined.

Lemma last_image_never_breaks_validation_witness :
  validateAssets
    (applyDefaults VNull initial_cliSet false
       (resolveLastImage (<["_lastImagePath" := VStr "last.png"]> s2v_options)))
  = Ok tt.
Proof.
  apply (last_image_never_breaks_validation VNull initial_cliSet false
           (<["_lastImagePath" := VStr "last.png"]> s2v_options)).
  vm_compute. reflexivity.
Defined.

Lemma last_image_supplies_the_i2v_image_witness :
  validateAssets i2v_last_options = Exit1 I2VRequiresImage
  ∧ validateAssets
      (applyDefaults VNull initial_cliSet false (resolveLastImage i2v_last_options))
    = Ok tt.
Proof.
  split; [vm_compute; reflexivity|].
  apply (last_image_supplies_the_i2v_image VNull initial_cliSet false i2v_last_options);
    vm_compute; reflexivity.
Defined.

Lemma last_image_makes_an_edit_witness :
  applyDefaults VNull initial_cliSet false (resolveLastImage edit_last_options)
    !!! "contextImages"
  = VArr ([] ++ [edit_last_options !!! "_lastImagePath"])
  ∧ applyDefaults VNull initial_cliSet false (resolveLastImage edit_last_options)
      !!! "model"
    = js_or (prop VNull "defaultEditModel") (VStr "qwen_image_edit_2511_fp8_lightning").
Proof.
  apply (last_image_makes_an_edit VNull initial_cliSet false edit_last_options []);
    vm_compute; reflexivity.
Defined.

Lemma builtin_video_model_matches_workflow_witness :
  inferVideoWorkflowFromModel
    (applyDefaults VNull initial_cliSet false
       (<["videoWorkflow" := VStr "s2v"]> (options clip_state)) !!! "model")
  = Ok (VStr "s2v").
Proof.
  apply (builtin_video_model_matches_workflow VNull initial_cliSet false
           (<["videoWorkflow" := VStr "s2v"]> (options clip_state)) S2V);
    vm_compute; reflexivity.
Defined.

Lemma inferred_workflow_validation_witness :
  ∃ r : obj, resolveWorkflow VNull (<["refAudio" := VStr "a.mp3"]> (options clip_state))
             = Ok r
    ∧ assets_of r = assets_of (<["refAudio" := VStr "a.mp3"]> (options clip_state))
    ∧ (validateAssets r = Ok tt
       ↔ inference_accepts
           (assets_of (<["refAudio" := VStr "a.mp3"]> (options clip_state))) = true).
Proof.
  apply (inferred_workflow_validation VNull
           (<["refAudio" := VStr "a.mp3"]> (options clip_state)) VNull);
    vm_compute; reflexivity.
Defined.

Lemma normalisation_is_idempotent_witness :
  normalizeVideoWorkflow (VStr "t2v") = Ok (VStr "t2v")
  ∧ normalizeSeedStrategy (VStr "prompt-hash") = Ok (VStr "prompt-hash").
Proof.
  apply (normalisation_is_idempotent (VStr "Text-To-Video") (VStr "t2v")
           (VStr "PROMPT_HASH") (VStr "prompt-hash"));
    vm_compute; reflexivity.
Defined.

Lemma request_carries_the_resolved_options_witness :
  prop (request_config seed42_request) "modelId" = seed42_resolved_options !!! "model"
  ∧ prop (request_config seed42_request) "positivePrompt"
    = seed42_resolved_options !!! "prompt"
  ∧ prop (request_config seed42_request) "seed" = seed42_resolved_options !!! "seed"
  ∧ nullish (prop (request_config seed42_request) "seed") = false
  ∧ (prop (request_config seed42_request) "tokenType" = VStr "spark"
     ∨ prop (request_config seed42_request) "tokenType" = VStr "sogni").
Proof.
  apply (request_carries_the_resolved_options no_media guidance_3_5 guidance_7_5
           bare_env seed42_state seed42_resolved_options seed42_request);
    [exact seed42_run | vm_compute; reflexivity].
Defined.

Lemma command_line_tuning_is_sent_witness :
  prop (request_config seed42_steps8_request) "steps" = VNum (Int 8).
Proof.
  transitivity ((<["steps" := VNum (Int 8)]> seed42_resolved_options) !!! "steps");
    [|vm_compute; reflexivity].
  apply (command_line_tuning_is_sent no_media guidance_3_5 guidance_7_5 VNull
           (<["steps" := VNum (Int 8)]> seed42_resolved_options));
    [vm_compute; reflexivity | by left | vm_compute; reflexivity].
Defined.

Lemma zero_steps_are_sent_only_with_an_edit_witness :
  has_prop (request_config seed42_request) "steps" = false.
Proof.
  apply (zero_steps_are_sent_only_with_an_edit no_media guidance_3_5 guidance_7_5 VNull
           (<["steps" := VNum (Int 0)]> seed42_resolved_options) seed42_request);
    vm_compute; reflexivity.
Defined.

Lemma video_request_has_frames_or_duration_witness :
  has_prop clip_request_config "frames" = on clip_resolved "frames"
  ∧ has_prop clip_request_config "duration" = negb (on clip_resolved "frames")
  ∧ prop clip_request_config
      (if on clip_resolved "frames" then "frames" else "duration")
    = clip_resolved !!! (if on clip_resolved "frames" then "frames" else "duration").
Proof.
  apply (video_request_has_frames_or_duration no_media guidance_3_5 guidance_7_5 VNull).
  vm_compute. reflexivity.
Defined.

Lemma credential_value_ends_at_equals_sign_witness :
  readLine ∅ ("SOGNI_PASSWORD" ++ "=" ++ "p" ++ "=" ++ "q")
  = readLine ∅ ("SOGNI_PASSWORD" ++ "=" ++ "p").
Proof.
  apply (credential_value_ends_at_equals_sign ∅ "SOGNI_PASSWORD" "p" "q");
    reflexivity.
Defined.

Lemma credentials_come_from_one_source_witness :
  on credentials_read "SOGNI_USERNAME" = true
  ∧ on credentials_read "SOGNI_PASSWORD" = true
  ∧ ((∃ content, CredentialsFile credentials_sample = CredentialsFile content
        ∧ credentials_read = fold_left readLine (split_on "010" content) ∅)
     ∨ (credentials_read !!! "SOGNI_USERNAME" = VUndef
        ∧ credentials_read !!! "SOGNI_PASSWORD" = VUndef)).
Proof.
  apply (credentials_come_from_one_source (CredentialsFile credentials_sample)
           VUndef VUndef credentials_read).
  exact credentials_sample_read.
Defined.

Lemma no_prompt_run : resolveOptions bare_env initial_state = Exit1 NoPrompt.
Proof. vm_compute. reflexivity. Qed.

Lemma context_images_stay_an_array_witness :
  ∃ images, clip_resolved !!! "contextImages" = VArr images.
Proof.
  apply (context_images_stay_an_array bare_env clip_args clip_state);
    [exact clip_parsed | exact clip_run].
Defined.

Lemma missing_prompt_error_is_the_users_witness :
  on (options initial_state) "prompt" = false.
Proof.
  apply (missing_prompt_error_is_the_users bare_env initial_state). exact no_prompt_run.
Defined.
